(** * TokenAutoUpdateClient: credential refresh, debounce/backoff and retry

    A shallow embedding of [token_auto_update_client.go]:
    - [fetchSTSToken]   (lines 73-122), the debounced fetch with backoff;
    - [processError]    (lines 124-138), the error classification;
    - [tryLoop]         the retry loop every forwarding method is written
                        with (lines 173-181 for [CreateProject]);
    - [PublishAlertEvent] (lines 2013-2022), the one method with a loop of
                        its own;
    - [flushSTSToken]   (lines 31-71), the background refresh loop.

    The code runs against three collaborators that are not part of the file:
    the clock ([time.Now]), the credential issuer ([tokenUpdateFunc]) and the
    wrapped client ([logClient]).  Their answers are inputs of the model,
    and every call made to them is recorded in a trace of [Event]s. *)

From Stdlib Require Import ZArith List Bool String Lia.
Import ListNotations.
Open Scope Z_scope.

(** ** Go's [time] package, as far as the client uses it *)

Module GoTime.

(** [time.Duration] is an [int64] count of nanoseconds. *)
Definition Duration := Z.

(** An instant, as nanoseconds on one common time line.  The zero
    [time.Time] is January 1, year 1, far outside the range of a
    [Duration] from any present instant. *)
Definition Time := Z.

Definition minDuration : Duration := - 2 ^ 63.
Definition maxDuration : Duration := 2 ^ 63 - 1.

(** Wrap-around of [int64] arithmetic. *)
Definition int64 (z : Z) : Z := (z + 2 ^ 63) mod 2 ^ 64 - 2 ^ 63.

Definition Second : Duration := 1000000000.
Definition Minute : Duration := 60 * Second.
Definition Hour : Duration := 60 * Minute.

Definition zeroTime : Time := - 62135596800 * Second.

(** [t.Sub(u)]: the difference, or the extreme [Duration] when the
    difference does not fit. *)
Definition Sub (t u : Time) : Duration :=
  Z.max minDuration (Z.min maxDuration (t - u)).

End GoTime.
Import GoTime.

(** ** Data model *)

(** What [ResetAccessKeyToken] hands to the wrapped client. *)
Record Credentials := mkCredentials {
  accessKeyID : string;
  accessKeySecret : string;
  securityToken : string
}.

(** A non-nil Go [error] value: one made by [errors.New], or an error of
    the service carrying its HTTP status and code. *)
Inductive GoError : Type :=
| errorsNew (text : string)
| serviceError (httpCode : Z) (code : string).

(** Go's [error] interface: [None] is [nil]. *)
Definition error := option GoError.

Definition errSTSFetchHighFrequency : GoError :=
  errorsNew "sts token fetch frequency is too high".

(** One answer of [tokenUpdateFunc]: the five results of the call, the
    first four being meaningful only when the error is [nil]. *)
Inductive TokenResult : Type :=
| TokenOk (k : Credentials) (expireTime : Time)
| TokenErr (e : GoError).

(** The struct (lines 12-27).  [logClient] is the credential the wrapped
    client currently signs with; [shutdown], [tokenUpdateFunc] and [lock]
    have no field here: the channel and the callback are inputs of the
    functions below, and the model is sequential.  [maxTryTimes] and
    [lastRetryFailCount] are Go [int]s, taken as 64 bits wide. *)
Record TokenAutoUpdateClient := mkClient {
  logClient : Credentials;
  closeFlag : bool;
  maxTryTimes : Z;
  waitIntervalMin : Duration;
  waitIntervalMax : Duration;
  updateTokenIntervalMin : Duration;
  nextExpire : Time;
  lastFetch : Time;
  lastRetryFailCount : Z;
  lastRetryInterval : Duration
}.

Definition set_logClient (k : Credentials) (c : TokenAutoUpdateClient) :=
  mkClient k (closeFlag c) (maxTryTimes c) (waitIntervalMin c)
    (waitIntervalMax c) (updateTokenIntervalMin c) (nextExpire c)
    (lastFetch c) (lastRetryFailCount c) (lastRetryInterval c).

Definition set_closeFlag (b : bool) (c : TokenAutoUpdateClient) :=
  mkClient (logClient c) b (maxTryTimes c) (waitIntervalMin c)
    (waitIntervalMax c) (updateTokenIntervalMin c) (nextExpire c)
    (lastFetch c) (lastRetryFailCount c) (lastRetryInterval c).

Definition set_nextExpire (t : Time) (c : TokenAutoUpdateClient) :=
  mkClient (logClient c) (closeFlag c) (maxTryTimes c) (waitIntervalMin c)
    (waitIntervalMax c) (updateTokenIntervalMin c) t
    (lastFetch c) (lastRetryFailCount c) (lastRetryInterval c).

Definition set_lastFetch (t : Time) (c : TokenAutoUpdateClient) :=
  mkClient (logClient c) (closeFlag c) (maxTryTimes c) (waitIntervalMin c)
    (waitIntervalMax c) (updateTokenIntervalMin c) (nextExpire c)
    t (lastRetryFailCount c) (lastRetryInterval c).

Definition set_lastRetryFailCount (n : Z) (c : TokenAutoUpdateClient) :=
  mkClient (logClient c) (closeFlag c) (maxTryTimes c) (waitIntervalMin c)
    (waitIntervalMax c) (updateTokenIntervalMin c) (nextExpire c)
    (lastFetch c) n (lastRetryInterval c).

Definition set_lastRetryInterval (d : Duration) (c : TokenAutoUpdateClient) :=
  mkClient (logClient c) (closeFlag c) (maxTryTimes c) (waitIntervalMin c)
    (waitIntervalMax c) (updateTokenIntervalMin c) (nextExpire c)
    (lastFetch c) (lastRetryFailCount c) d.

(** ** Effects: a trace of calls, threaded with the client *)

Inductive Event : Type :=
| EvSleep (d : Duration)                 (* time.Sleep(d) *)
| EvTokenUpdate                          (* c.tokenUpdateFunc() *)
| EvResetAccessKeyToken (k : Credentials) (* c.logClient.ResetAccessKeyToken *)
| EvFetchSTSToken                        (* a call of c.fetchSTSToken() *)
| EvOperation                            (* a call of the wrapped operation *)
| EvWait (d : Duration).                 (* select on time.After(d) / shutdown *)

Record Outcome (A : Type) := mkOutcome {
  ret : A;
  post : TokenAutoUpdateClient;
  trace : list Event
}.
Arguments mkOutcome {A} _ _ _.
Arguments ret {A} _.
Arguments post {A} _.
Arguments trace {A} _.

Definition M (A : Type) := TokenAutoUpdateClient -> Outcome A.

Definition retM {A} (a : A) : M A := fun c => mkOutcome a c [].

Definition bind {A B} (m : M A) (k : A -> M B) : M B := fun c =>
  let r := m c in
  let r' := k (ret r) (post r) in
  mkOutcome (ret r') (post r') (trace r ++ trace r').

Definition get : M TokenAutoUpdateClient := fun c => mkOutcome c c [].

Definition modify (f : TokenAutoUpdateClient -> TokenAutoUpdateClient) : M unit :=
  fun c => mkOutcome tt (f c) [].

Definition emit (e : Event) : M unit := fun c => mkOutcome tt c [e].

Declare Scope go_scope.
Delimit Scope go_scope with go.
Notation "x <- m ;; k" := (bind m (fun x => k))
  (at level 61, m at next level, right associativity) : go_scope.
Notation "m ;; k" := (bind m (fun _ => k))
  (at level 61, right associativity) : go_scope.
Open Scope go_scope.

(** How often an event occurs in a trace. *)
Definition isOperation (e : Event) : bool :=
  match e with EvOperation => true | _ => false end.
Definition isFetch (e : Event) : bool :=
  match e with EvFetchSTSToken => true | _ => false end.

Definition occurrences (p : Event -> bool) (tr : list Event) : nat :=
  List.length (filter p tr).

(** ** fetchSTSToken (lines 73-122) *)

(** Lines 85-91: the retry interval doubled, then raised to
    [waitIntervalMin] and cut at [waitIntervalMax], in that order. *)
Definition doubledInterval (c : TokenAutoUpdateClient) : Duration :=
  let d := int64 (lastRetryInterval c * 2) in
  let d := if d <? waitIntervalMin c then waitIntervalMin c else d in
  if d >=? waitIntervalMax c then waitIntervalMax c else d.

(** Lines 77-95, the first critical section: the debounce test, and the
    backoff to sleep before the call.  Returns [(skip, sleepTime)]. *)
Definition fetchPrepare (nowTime : Time) : M (bool * Duration) :=
  c <- get ;;
  if Sub nowTime (lastFetch c) <? updateTokenIntervalMin c then
    retM (true, 0)
  else
    modify (set_lastFetch nowTime) ;;
    if lastRetryFailCount c =? 0 then
      retM (false, 0)
    else
      let d := doubledInterval c in
      modify (set_lastRetryInterval d) ;;
      retM (false, d).

(** [c.logClient.ResetAccessKeyToken] (line 110). *)
Definition ResetAccessKeyToken (k : Credentials) : M unit :=
  modify (set_logClient k) ;; emit (EvResetAccessKeyToken k).

(** The whole function.  [nowTime] is what [time.Now()] returns at line 74
    and [issue] what [c.tokenUpdateFunc()] answers at line 103 if the call
    is reached. *)
Definition fetchSTSToken (nowTime : Time) (issue : TokenResult) : M error :=
  p <- fetchPrepare nowTime ;;
  let '(skip, sleepTime) := p in
  if skip then
    retM (Some errSTSFetchHighFrequency)
  else
    (if sleepTime >? 0 then emit (EvSleep sleepTime) else retM tt) ;;
    emit EvTokenUpdate ;;
    match issue with
    | TokenOk k expireTime =>
        modify (fun c => set_nextExpire expireTime
                           (set_lastRetryInterval 0
                              (set_lastRetryFailCount 0 c))) ;;
        ResetAccessKeyToken k ;;
        retM None
    | TokenErr e =>
        modify (fun c => set_lastRetryFailCount
                           (int64 (lastRetryFailCount c + 1)) c) ;;
        retM (Some e)
    end.

(** What the world answers should [fetchSTSToken] be called: the clock
    reading and the issuer's reply. *)
Record FetchInput := mkFetchInput {
  fetchNow : Time;
  fetchIssue : TokenResult
}.

Definition callFetchSTSToken (f : FetchInput) : M error :=
  emit EvFetchSTSToken ;; fetchSTSToken (fetchNow f) (fetchIssue f).

(** ** processError and the retry loops *)

Section Decorator.

(** [IsTokenError] is defined elsewhere in the package; the client only
    needs its verdict. *)
Variable IsTokenError : GoError -> bool.

(** Lines 124-138. *)
Definition processError (f : FetchInput) (err : error) : M bool :=
  match err with
  | None => retM false
  | Some e =>
      if IsTokenError e then
        fetchErr <- callFetchSTSToken f ;;
        match fetchErr with
        | Some _ => retM false
        | None => retM true
        end
      else retM false
  end.

(** The results of a forwarding method other than the error, with their
    zero value: Go's named results start out zeroed. *)
Variable R : Type.
Variable zero : R.

(** The wrapped operation: [op i] is what its [i]-th call returns
    (counting from 0); [env i] is what a fetch made after that call
    would see. *)
Variable op : nat -> R * error.
Variable env : nat -> FetchInput.

Definition callOperation (i : nat) : M (R * error) :=
  emit EvOperation ;; retM (op i).

(** The loop [for i := 0; i < c.maxTryTimes; i++] of lines 174-180 with
    [n] iterations left, [i] the loop counter and [cur] the current
    values of the named results. *)
Fixpoint tryLoop (n i : nat) (cur : R * error) : M (R * error) :=
  match n with
  | O => retM cur
  | S n' =>
      r <- callOperation i ;;
      retry <- processError (env i) (snd r) ;;
      if retry then tryLoop n' (S i) r else retM r
  end.

(** A forwarding method: [CreateProject] and the others. *)
Definition decorated : M (R * error) :=
  c <- get ;;
  tryLoop (Z.to_nat (maxTryTimes c)) 0 (zero, None).

End Decorator.

(** Line 173, with [*LogProject] as an optional project name. *)
Definition CreateProject (IsTokenError : GoError -> bool)
  (op : nat -> option string * error) (env : nat -> FetchInput)
  : M (option string * error) :=
  decorated IsTokenError (option string) None op env.

(** Lines 2013-2022: [PublishAlertEvent] has its own loop, which leaves
    on a [nil] error only. *)
Section PublishAlertEvent.

Variable op : nat -> error.

Fixpoint publishLoop (n i : nat) (err : error) : M error :=
  match n with
  | O => retM err
  | S n' =>
      emit EvOperation ;;
      match op i with
      | None => retM None
      | Some e => publishLoop n' (S i) (Some e)
      end
  end.

Definition PublishAlertEvent : M error :=
  c <- get ;;
  publishLoop (Z.to_nat (maxTryTimes c)) 0 None.

End PublishAlertEvent.

(** ** flushSTSToken (lines 31-71) *)

(** Lines 36-45: the interval to sleep, from the time left to expiry.
    [/] on [int64] truncates toward zero. *)
Definition sleepInterval (sleepTime : Duration) : Duration :=
  if sleepTime <? Minute then int64 (Second * 30)
  else if sleepTime <? int64 (Minute * 10) then int64 (Z.quot sleepTime 10 * 7)
  else if sleepTime <? Hour then int64 (Z.quot sleepTime 10 * 6)
  else int64 (Z.quot sleepTime 10 * 5).

(** Which case of the [select] (lines 51-62) is taken. *)
Inductive Wake : Type :=
| WakeTrigger (f : FetchInput)
| WakeShutdown.

(** One turn of the loop as the world drives it: the clock at line 33,
    the [select], and whether [Close] has been called by another
    goroutine before line 63 reads the flag. *)
Record Tick := mkTick {
  tickNow : Time;
  tickWake : Wake;
  tickClose : bool
}.

(** Lines 164-167. *)
Definition Close : M error :=
  modify (set_closeFlag true) ;; retM None.

Inductive Exit : Type :=
| ExitShutdown          (* line 61 *)
| ExitCloseFlag.        (* line 67 *)

(** The loop, driven by a finite list of turns: [Some] exit when one of
    the two [return]s is reached, [None] when the goroutine is still in
    the loop after the last turn given. *)
Fixpoint flushSTSToken (ticks : list Tick) : M (option Exit) :=
  match ticks with
  | [] => retM None
  | tk :: rest =>
      c <- get ;;
      emit (EvWait (sleepInterval (Sub (nextExpire c) (tickNow tk)))) ;;
      match tickWake tk with
      | WakeShutdown => retM (Some ExitShutdown)
      | WakeTrigger f =>
          _ <- callFetchSTSToken f ;;
          (if tickClose tk then Close else retM None) ;;
          c' <- get ;;
          if closeFlag c' then retM (Some ExitCloseFlag)
          else flushSTSToken rest
      end
  end.

(** A sequence of fetches, one after the other. *)
Fixpoint fetchAll (fs : list FetchInput) (c : TokenAutoUpdateClient)
  : TokenAutoUpdateClient :=
  match fs with
  | [] => c
  | f :: rest => fetchAll rest (post (fetchSTSToken (fetchNow f) (fetchIssue f) c))
  end.

(** ** The words of the specification *)

(** [clamp x lo hi]: [x] brought into the interval from [lo] to [hi]. *)
Definition clamp (x lo hi : Z) : Z :=
  if x <? lo then lo else if hi <? x then hi else x.

(** ** Vocabulary of the statements *)

(** The test of line 78: whether a fetch at [nowTime] falls inside the
    debounce window. *)
Definition debounced (nowTime : Time) (c : TokenAutoUpdateClient) : bool :=
  Sub nowTime (lastFetch c) <? updateTokenIntervalMin c.

(** The counters of a client that has not failed since its last success. *)
Definition zeroed (c : TokenAutoUpdateClient) : Prop :=
  lastRetryFailCount c = 0 /\ lastRetryInterval c = 0.

(** The fraction of the remaining time slept, in tenths, once a minute or
    more remains. *)
Definition tierTenths (t : Duration) : Z :=
  if t <? 10 * Minute then 7 else if t <? Hour then 6 else 5.

(** A turn of the refresh loop in which the timer fires and [Close] has
    not been called: nothing asks the loop to stop. *)
Definition quietTick (tk : Tick) : Prop :=
  match tickWake tk with
  | WakeTrigger _ => tickClose tk = false
  | WakeShutdown => False
  end.

(** The [select] of a turn that takes the shutdown case. *)
Definition shutdownTick (tk : Tick) : Prop := tickWake tk = WakeShutdown.

(** The wait a turn starts with (lines 33-50). *)
Definition waitEvent (tk : Tick) (c : TokenAutoUpdateClient) : Event :=
  EvWait (sleepInterval (Sub (nextExpire c) (tickNow tk))).

(** ** Names for the intermediate stages of a fetch, used to state lemmas *)

(** The client as the first critical section leaves it when the fetch is
    not skipped, and the [time.Sleep] that follows (lines 99-101). *)
Definition prepared (nowTime : Time) (c : TokenAutoUpdateClient)
  : TokenAutoUpdateClient :=
  if lastRetryFailCount c =? 0 then set_lastFetch nowTime c
  else set_lastRetryInterval (doubledInterval c) (set_lastFetch nowTime c).

Definition sleepTrace (c : TokenAutoUpdateClient) : list Event :=
  if lastRetryFailCount c =? 0 then []
  else if doubledInterval c >? 0 then [EvSleep (doubledInterval c)] else [].

(** The retry interval stays between the bounds, or at the zero it starts
    from and is reset to. *)
Definition intervalBounded (c : TokenAutoUpdateClient) : Prop :=
  Z.min 0 (Z.min (waitIntervalMin c) (waitIntervalMax c))
  <= lastRetryInterval c <= Z.max 0 (waitIntervalMax c).

(** The failure counter after at most [n] fetches, and the half of the
    link between counter and interval that the code keeps. *)
Definition failuresTracked (n : Z) (c : TokenAutoUpdateClient) : Prop :=
  0 <= lastRetryFailCount c <= n /\
  (lastRetryFailCount c = 0 -> lastRetryInterval c = 0).

(** ** Concrete data for the examples *)

Module Sample.

Definition k0 : Credentials := mkCredentials "id0" "secret0" "token0".
Definition k1 : Credentials := mkCredentials "id1" "secret1" "token1".

Definition e401 : GoError := serviceError 401 "Unauthorized".
Definition e500 : GoError := serviceError 500 "InternalServerError".

(** A stand-in for [IsTokenError]: status 401 is a token error. *)
Definition isTokenError (e : GoError) : bool :=
  match e with
  | serviceError 401 _ => true
  | _ => false
  end.

(** A client with three tries, one second of debounce, a backoff between
    one second and one minute, a credential that expires at second 100,
    and nothing fetched yet: [lastFetch] is the zero [time.Time]. *)
Definition c0 : TokenAutoUpdateClient :=
  mkClient k0 false 3 (1 * Second) (60 * Second) (1 * Second)
    (100 * Second) zeroTime 0 0.

Definition at_s (s : Z) (issue : TokenResult) : FetchInput :=
  mkFetchInput (s * Second) issue.

End Sample.

(** ** Further vocabulary: call accounting, sequences, backoff growth *)

Definition isTokenUpdate (e : Event) : bool :=
  match e with EvTokenUpdate => true | _ => false end.
Definition isReset (e : Event) : bool :=
  match e with EvResetAccessKeyToken _ => true | _ => false end.
Definition isWait (e : Event) : bool :=
  match e with EvWait _ => true | _ => false end.
Definition isSleep (e : Event) : bool :=
  match e with EvSleep _ => true | _ => false end.

(** Every [time.Sleep] of a trace lasts more than [lo] and at most [hi];
    every wait of the refresh loop lasts at least [lo]. *)
Definition sleepsWithin (lo hi : Duration) (tr : list Event) : Prop :=
  Forall (fun e => match e with
                   | EvSleep d => lo < d <= hi
                   | _ => True
                   end) tr.

Definition waitsAtLeast (lo : Duration) (tr : list Event) : Prop :=
  Forall (fun e => match e with
                   | EvWait d => lo <= d
                   | _ => True
                   end) tr.

(** A sequence of fetches, one after the other, with their results and
    the trace of the whole. *)
Fixpoint fetchEach (fs : list FetchInput) : M (list error) :=
  match fs with
  | [] => retM []
  | f :: rest =>
      e <- fetchSTSToken (fetchNow f) (fetchIssue f) ;;
      es <- fetchEach rest ;;
      retM (e :: es)
  end.



(** No fetch of the sequence is skipped. *)
Fixpoint allProceed (fs : list FetchInput) (c : TokenAutoUpdateClient)
  : bool :=
  match fs with
  | [] => true
  | f :: rest =>
      negb (debounced (fetchNow f) c)
      && allProceed rest (post (fetchSTSToken (fetchNow f) (fetchIssue f) c))
  end.

Definition isFailure (f : FetchInput) : bool :=
  match fetchIssue f with
  | TokenErr _ => true
  | TokenOk _ _ => false
  end.

(** The retry interval after [n] failures in a row, for bounds [lo] and
    [hi]: nothing after the first, then [lo] doubling up to [hi]. *)
Definition backoffAfter (lo hi : Duration) (n : nat) : Duration :=
  match n with
  | O => 0
  | S O => 0
  | S (S k) => Z.min hi (lo * 2 ^ Z.of_nat k)
  end.

(** The retry interval is zero or between the bounds. *)
Definition intervalInRange (c : TokenAutoUpdateClient) : Prop :=
  lastRetryInterval c = 0 \/
  waitIntervalMin c <= lastRetryInterval c <= waitIntervalMax c.

(** The fetches made for tries [i], [i+1], ... [i+n-1] all return [nil],
    each in the state the one before leaves. *)
Fixpoint fetchesSucceed (env : nat -> FetchInput) (n i : nat)
  (c : TokenAutoUpdateClient) : Prop :=
  match n with
  | O => True
  | S n' =>
      let r := fetchSTSToken (fetchNow (env i)) (fetchIssue (env i)) c in
      ret r = None /\ fetchesSucceed env n' (S i) (post r)
  end.

(** Every wait of a trace lasts exactly [d]. *)
Definition waitsExactly (d : Duration) (tr : list Event) : Prop :=
  Forall (fun e => match e with
                   | EvWait w => w = d
                   | _ => True
                   end) tr.

(** A turn of the refresh loop in which the timer fires, [Close] is not
    called and the issuer, if asked, returns an error. *)
Definition failingTick (tk : Tick) : Prop :=
  match tickWake tk with
  | WakeTrigger f => isFailure f = true /\ tickClose tk = false
  | WakeShutdown => False
  end.

(** The fields no method writes once the client is built. *)
Definition sameConfig (c c' : TokenAutoUpdateClient) : Prop :=
  maxTryTimes c' = maxTryTimes c /\
  waitIntervalMin c' = waitIntervalMin c /\
  waitIntervalMax c' = waitIntervalMax c /\
  updateTokenIntervalMin c' = updateTokenIntervalMin c.

(** * Properties *)

(** ** Arithmetic of durations *)

Lemma int64_small (z : Z) : - 2 ^ 63 <= z < 2 ^ 63 -> int64 z = z.
Proof.
  intros Hz. unfold int64.
  rewrite Z.mod_small by lia. lia.
Qed.

Lemma Sub_range (t u : Time) : minDuration <= Sub t u <= maxDuration.
Proof. unfold Sub, minDuration, maxDuration. lia. Qed.

Lemma Sub_le_diff (t u : Time) : u <= t -> Sub t u <= t - u.
Proof. unfold Sub, minDuration. lia. Qed.

(** The code's two tests in a row are the usual clamp as soon as the
    bounds are in order. *)
Lemma two_tests_clamp (x lo hi : Z) :
  lo <= hi ->
  (let d := if x <? lo then lo else x in if d >=? hi then hi else d)
  = clamp x lo hi.
Proof.
  intros Hle. unfold clamp. cbv zeta.
  destruct (x <? lo) eqn:E1.
  - apply Z.ltb_lt in E1.
    destruct (lo >=? hi) eqn:E2; [ | reflexivity].
    rewrite Z.geb_leb in E2. apply Z.leb_le in E2. lia.
  - apply Z.ltb_ge in E1.
    destruct (x >=? hi) eqn:E2; destruct (hi <? x) eqn:E3;
      rewrite ?Z.geb_leb in E2;
      try apply Z.leb_le in E2; try apply Z.leb_gt in E2;
      try apply Z.ltb_lt in E3; try apply Z.ltb_ge in E3; lia.
Qed.

(** ** One fetch, case by case *)

Lemma fetchPrepare_run (nowTime : Time) (c : TokenAutoUpdateClient) :
  fetchPrepare nowTime c =
  if debounced nowTime c then mkOutcome (true, 0) c []
  else if lastRetryFailCount c =? 0
       then mkOutcome (false, 0) (set_lastFetch nowTime c) []
       else mkOutcome (false, doubledInterval c)
              (set_lastRetryInterval (doubledInterval c)
                 (set_lastFetch nowTime c)) [].
Proof.
  unfold fetchPrepare, debounced, bind, get. cbn.
  destruct (Sub nowTime (lastFetch c) <? updateTokenIntervalMin c);
    [reflexivity | ].
  cbn. destruct (lastRetryFailCount c =? 0); reflexivity.
Qed.

Lemma fetch_skipped (nowTime : Time) (issue : TokenResult)
  (c : TokenAutoUpdateClient) :
  debounced nowTime c = true ->
  fetchSTSToken nowTime issue c =
  mkOutcome (Some errSTSFetchHighFrequency) c [].
Proof.
  intros Hd. unfold fetchSTSToken, bind.
  rewrite fetchPrepare_run, Hd. reflexivity.
Qed.

Lemma fetch_succeeded (nowTime : Time) (k : Credentials) (expireTime : Time)
  (c : TokenAutoUpdateClient) :
  debounced nowTime c = false ->
  fetchSTSToken nowTime (TokenOk k expireTime) c =
  mkOutcome None
    (set_logClient k
       (set_nextExpire expireTime
          (set_lastRetryInterval 0
             (set_lastRetryFailCount 0 (prepared nowTime c)))))
    (sleepTrace c ++ [EvTokenUpdate; EvResetAccessKeyToken k]).
Proof.
  intros Hd. unfold fetchSTSToken, bind, prepared, sleepTrace.
  rewrite fetchPrepare_run, Hd.
  destruct (lastRetryFailCount c =? 0); cbn; [reflexivity | ].
  destruct (doubledInterval c >? 0); reflexivity.
Qed.

Lemma fetch_failed (nowTime : Time) (e : GoError)
  (c : TokenAutoUpdateClient) :
  debounced nowTime c = false ->
  fetchSTSToken nowTime (TokenErr e) c =
  mkOutcome (Some e)
    (set_lastRetryFailCount (int64 (lastRetryFailCount c + 1))
       (prepared nowTime c))
    (sleepTrace c ++ [EvTokenUpdate]).
Proof.
  intros Hd. unfold fetchSTSToken, bind, prepared, sleepTrace.
  rewrite fetchPrepare_run, Hd.
  destruct (lastRetryFailCount c =? 0); cbn; [reflexivity | ].
  destruct (doubledInterval c >? 0); reflexivity.
Qed.

(** A fetch never touches the configuration. *)
Lemma fetch_config (nowTime : Time) (issue : TokenResult)
  (c : TokenAutoUpdateClient) :
  let c' := post (fetchSTSToken nowTime issue c) in
  waitIntervalMin c' = waitIntervalMin c /\
  waitIntervalMax c' = waitIntervalMax c /\
  updateTokenIntervalMin c' = updateTokenIntervalMin c /\
  maxTryTimes c' = maxTryTimes c /\
  closeFlag c' = closeFlag c.
Proof.
  cbv zeta. destruct (debounced nowTime c) eqn:Hd.
  - rewrite fetch_skipped by assumption. cbn. tauto.
  - destruct issue as [k t | e];
      [rewrite fetch_succeeded by assumption
      | rewrite fetch_failed by assumption];
      unfold prepared; destruct (lastRetryFailCount c =? 0); cbn; tauto.
Qed.

Lemma fetchAll_config (fs : list FetchInput) (c : TokenAutoUpdateClient) :
  waitIntervalMin (fetchAll fs c) = waitIntervalMin c /\
  waitIntervalMax (fetchAll fs c) = waitIntervalMax c /\
  updateTokenIntervalMin (fetchAll fs c) = updateTokenIntervalMin c.
Proof.
  revert c. induction fs as [ | f fs IH]; intros c; cbn [fetchAll].
  - tauto.
  - destruct (IH (post (fetchSTSToken (fetchNow f) (fetchIssue f) c)))
      as (H1 & H2 & H3).
    destruct (fetch_config (fetchNow f) (fetchIssue f) c)
      as (G1 & G2 & G3 & _).
    rewrite H1, H2, H3. tauto.
Qed.

(** The doubled interval never leaves the range spanned by the bounds. *)
Lemma doubledInterval_range (c : TokenAutoUpdateClient) :
  Z.min (waitIntervalMin c) (waitIntervalMax c) <= doubledInterval c
  /\ doubledInterval c <= waitIntervalMax c.
Proof.
  unfold doubledInterval. cbv zeta.
  destruct (int64 (lastRetryInterval c * 2) <? waitIntervalMin c) eqn:E1.
  - destruct (waitIntervalMin c >=? waitIntervalMax c) eqn:E2;
      rewrite Z.geb_leb in E2;
      [apply Z.leb_le in E2 | apply Z.leb_gt in E2]; lia.
  - apply Z.ltb_ge in E1.
    destruct (int64 (lastRetryInterval c * 2) >=? waitIntervalMax c) eqn:E2;
      rewrite Z.geb_leb in E2;
      [apply Z.leb_le in E2 | apply Z.leb_gt in E2]; lia.
Qed.

Lemma fetch_intervalBounded (nowTime : Time) (issue : TokenResult)
  (c : TokenAutoUpdateClient) :
  intervalBounded c ->
  intervalBounded (post (fetchSTSToken nowTime issue c)).
Proof.
  unfold intervalBounded. intros Hc.
  destruct (debounced nowTime c) eqn:Hd.
  - rewrite fetch_skipped by assumption. exact Hc.
  - pose proof (doubledInterval_range c) as Hr.
    destruct issue as [k t | e];
      [rewrite fetch_succeeded by assumption
      | rewrite fetch_failed by assumption];
      unfold prepared; destruct (lastRetryFailCount c =? 0); cbn; lia.
Qed.

Lemma fetchAll_intervalBounded (fs : list FetchInput)
  (c : TokenAutoUpdateClient) :
  intervalBounded c -> intervalBounded (fetchAll fs c).
Proof.
  revert c. induction fs as [ | f fs IH]; intros c Hc; cbn [fetchAll].
  - exact Hc.
  - apply IH, fetch_intervalBounded, Hc.
Qed.

(** With bounds in order and far from the ends of [int64], the code's
    doubling is the specification's [clamp] of the exact double. *)
Lemma doubledInterval_clamp (c : TokenAutoUpdateClient) :
  - 2 ^ 62 <= waitIntervalMin c ->
  waitIntervalMin c <= waitIntervalMax c ->
  waitIntervalMax c < 2 ^ 62 ->
  intervalBounded c ->
  doubledInterval c =
  clamp (lastRetryInterval c * 2) (waitIntervalMin c) (waitIntervalMax c).
Proof.
  intros Hlo Hle Hhi Hb. unfold intervalBounded in Hb.
  unfold doubledInterval.
  rewrite int64_small by lia.
  apply two_tests_clamp. exact Hle.
Qed.

Lemma zeroed_intervalBounded (c : TokenAutoUpdateClient) :
  zeroed c -> intervalBounded c.
Proof. intros [_ H]. unfold intervalBounded. rewrite H. lia. Qed.

(** ** Backoff and failure counter *)

(** C1, as the code has it.  From a zeroed client and through any sequence
    of fetches, with bounds in order and below 2^62 ns in size: a fetch
    inside the debounce window changes nothing; a fetch that fails adds
    one to [lastRetryFailCount] and leaves [lastRetryInterval] at
    [clamp (previous * 2) waitIntervalMin waitIntervalMax] when the counter
    was not zero before it, and unchanged when it was zero; a fetch that
    succeeds sets both to zero. *)
Theorem backoff_after_fetch (c0 : TokenAutoUpdateClient)
  (fs : list FetchInput) (f : FetchInput) :
  zeroed c0 ->
  - 2 ^ 62 <= waitIntervalMin c0 ->
  waitIntervalMin c0 <= waitIntervalMax c0 ->
  waitIntervalMax c0 < 2 ^ 62 ->
  let c := fetchAll fs c0 in
  let c' := post (fetchSTSToken (fetchNow f) (fetchIssue f) c) in
  if debounced (fetchNow f) c then c' = c
  else match fetchIssue f with
       | TokenErr _ =>
           lastRetryFailCount c' = int64 (lastRetryFailCount c + 1) /\
           lastRetryInterval c' =
             (if lastRetryFailCount c =? 0 then lastRetryInterval c
              else clamp (lastRetryInterval c * 2)
                     (waitIntervalMin c0) (waitIntervalMax c0))
       | TokenOk _ _ =>
           lastRetryFailCount c' = 0 /\ lastRetryInterval c' = 0
       end.
Proof.
  intros Hz Hlo Hle Hhi c c'.
  assert (Hb : intervalBounded c)
    by (apply fetchAll_intervalBounded, zeroed_intervalBounded, Hz).
  destruct (fetchAll_config fs c0) as (Hmin & Hmax & _).
  fold c in Hmin, Hmax.
  destruct (debounced (fetchNow f) c) eqn:Hd; subst c'.
  - rewrite fetch_skipped by assumption. reflexivity.
  - destruct (fetchIssue f) as [k t | e].
    + rewrite fetch_succeeded by assumption. cbn. split; reflexivity.
    + rewrite fetch_failed by assumption. unfold prepared.
      destruct (lastRetryFailCount c =? 0) eqn:Hn; cbn.
      * split; reflexivity.
      * split; [reflexivity | ].
        rewrite <- Hmin, <- Hmax.
        apply doubledInterval_clamp; lia || assumption.
Qed.

Lemma backoff_after_fetch_witness :
  let c := fetchAll [Sample.at_s 1000 (TokenErr Sample.e500);
                     Sample.at_s 1002 (TokenErr Sample.e500)] Sample.c0 in
  let c' := post (fetchSTSToken (1004 * Second) (TokenErr Sample.e500) c) in
  lastRetryFailCount c' = 3 /\ lastRetryInterval c' = 2 * Second.
Proof.
  pose proof (backoff_after_fetch Sample.c0
                [Sample.at_s 1000 (TokenErr Sample.e500);
                 Sample.at_s 1002 (TokenErr Sample.e500)]
                (Sample.at_s 1004 (TokenErr Sample.e500))) as H.
  assert (Hz : zeroed Sample.c0) by (split; reflexivity).
  specialize (H Hz).
  assert (H1 : - 2 ^ 62 <= waitIntervalMin Sample.c0) by (vm_compute; discriminate).
  assert (H2 : waitIntervalMin Sample.c0 <= waitIntervalMax Sample.c0)
    by (vm_compute; discriminate).
  assert (H3 : waitIntervalMax Sample.c0 < 2 ^ 62) by (vm_compute; reflexivity).
  specialize (H H1 H2 H3).
  vm_compute in H. vm_compute. exact H.
Defined.

(** The first failure after a success is counted, yet the interval stays
    at zero where the claim has [clamp (0 * 2) min max], one second here. *)
Lemma backoff_after_fetch_counterexample :
  let c := Sample.c0 in
  let c' := post (fetchSTSToken (1000 * Second) (TokenErr Sample.e500) c) in
  lastRetryFailCount c' = lastRetryFailCount c + 1 /\
  lastRetryInterval c' = 0 /\
  clamp (lastRetryInterval c * 2) (waitIntervalMin c) (waitIntervalMax c)
  = 1 * Second /\
  lastRetryInterval c' <>
  clamp (lastRetryInterval c * 2) (waitIntervalMin c) (waitIntervalMax c).
Proof. vm_compute. repeat split; discriminate. Qed.

Lemma fetch_failuresTracked (n : Z) (nowTime : Time) (issue : TokenResult)
  (c : TokenAutoUpdateClient) :
  n + 1 < 2 ^ 63 ->
  failuresTracked n c ->
  failuresTracked (n + 1) (post (fetchSTSToken nowTime issue c)).
Proof.
  unfold failuresTracked. intros Hn [Hc Hi].
  destruct (debounced nowTime c) eqn:Hd.
  - rewrite fetch_skipped by assumption. cbn. split; [lia | exact Hi].
  - destruct issue as [k t | e].
    + rewrite fetch_succeeded by assumption. cbn. split; [lia | reflexivity].
    + rewrite fetch_failed by assumption. cbn.
      rewrite int64_small by lia. split; lia.
Qed.

Lemma fetchAll_failuresTracked (fs : list FetchInput) (n : Z)
  (c : TokenAutoUpdateClient) :
  0 <= n ->
  n + Z.of_nat (List.length fs) < 2 ^ 63 ->
  failuresTracked n c ->
  failuresTracked (n + Z.of_nat (List.length fs)) (fetchAll fs c).
Proof.
  revert n c. induction fs as [ | f fs IH]; intros n c Hn Hlen Hc.
  - cbn. rewrite Z.add_0_r. exact Hc.
  - cbn [fetchAll List.length] in *.
    rewrite Nat2Z.inj_succ in *.
    replace (n + Z.succ (Z.of_nat (List.length fs)))
      with ((n + 1) + Z.of_nat (List.length fs)) in * by lia.
    apply IH; [lia | lia | ].
    apply fetch_failuresTracked; [lia | exact Hc].
Qed.

(** C2, the half that holds.  After any sequence of fewer than 2^63
    fetches from a zeroed client, a zero [lastRetryFailCount] comes with a
    zero [lastRetryInterval]. *)
Theorem zero_failures_zero_backoff (c0 : TokenAutoUpdateClient)
  (fs : list FetchInput) :
  zeroed c0 ->
  Z.of_nat (List.length fs) < 2 ^ 63 ->
  lastRetryFailCount (fetchAll fs c0) = 0 ->
  lastRetryInterval (fetchAll fs c0) = 0.
Proof.
  intros [Hc Hi] Hlen.
  assert (H : failuresTracked (0 + Z.of_nat (List.length fs)) (fetchAll fs c0)).
  { apply fetchAll_failuresTracked; [lia | lia | ].
    split; [lia | intros _; exact Hi]. }
  exact (proj2 H).
Qed.

Lemma zero_failures_zero_backoff_witness :
  lastRetryInterval
    (fetchAll [Sample.at_s 1000 (TokenErr Sample.e500);
               Sample.at_s 1002 (TokenErr Sample.e500);
               Sample.at_s 1004 (TokenOk Sample.k1 (5000 * Second))]
       Sample.c0) = 0.
Proof.
  apply (zero_failures_zero_backoff Sample.c0).
  - split; reflexivity.
  - vm_compute. reflexivity.
  - vm_compute. reflexivity.
Defined.

(** After the first failure the counter is 1 and the interval still 0. *)
Lemma zero_failures_zero_backoff_counterexample :
  let c := fetchAll [Sample.at_s 1000 (TokenErr Sample.e500)] Sample.c0 in
  zeroed Sample.c0 /\
  ~ (lastRetryFailCount c = 0 <-> lastRetryInterval c = 0).
Proof.
  cbv zeta. split; [split; reflexivity | ].
  intros [_ H]. specialize (H eq_refl). vm_compute in H. discriminate.
Qed.

(** ** The stored expiry *)

(** C3, as the code has it.  [nextExpire] changes only when the fetch
    returns [nil], and then becomes the expiry the issuer returned,
    whatever it is; so it does not move back exactly when the issuer's
    expiry is not earlier than the stored one.  A fetch that returns an
    error, the debounce error included, leaves it alone. *)
Theorem nextExpire_after_fetch (nowTime : Time) (issue : TokenResult)
  (c : TokenAutoUpdateClient) :
  let r := fetchSTSToken nowTime issue c in
  match ret r with
  | None =>
      exists k expireTime,
        issue = TokenOk k expireTime /\
        nextExpire (post r) = expireTime /\
        (nextExpire c <= nextExpire (post r) <-> nextExpire c <= expireTime)
  | Some _ => nextExpire (post r) = nextExpire c
  end.
Proof.
  cbv zeta. destruct (debounced nowTime c) eqn:Hd.
  - rewrite fetch_skipped by assumption. reflexivity.
  - destruct issue as [k t | e].
    + rewrite fetch_succeeded by assumption. cbn.
      exists k, t. repeat split; auto.
    + rewrite fetch_failed by assumption. unfold prepared.
      destruct (lastRetryFailCount c =? 0); reflexivity.
Qed.

(** A successful fetch whose issuer hands out a credential that expires at
    second 50 moves the stored expiry back from second 100. *)
Lemma nextExpire_after_fetch_counterexample :
  let r := fetchSTSToken (10 * Second)
             (TokenOk Sample.k1 (50 * Second)) Sample.c0 in
  ret r = None /\
  nextExpire Sample.c0 = 100 * Second /\
  nextExpire (post r) = 50 * Second /\
  nextExpire (post r) < nextExpire Sample.c0.
Proof. vm_compute. repeat split. Qed.

(** ** The debounce window *)

(** Inside the window the fetch is the identity on the client, calls
    nobody and returns the debounce error. *)
Lemma debounced_le (nowTime : Time) (c : TokenAutoUpdateClient) :
  lastFetch c <= nowTime ->
  nowTime - lastFetch c < updateTokenIntervalMin c ->
  debounced nowTime c = true.
Proof.
  intros Hle Hlt. unfold debounced. apply Z.ltb_lt.
  pose proof (Sub_le_diff nowTime (lastFetch c) Hle). lia.
Qed.

Lemma fetch_sets_lastFetch (nowTime : Time) (issue : TokenResult)
  (c : TokenAutoUpdateClient) :
  debounced nowTime c = false ->
  lastFetch (post (fetchSTSToken nowTime issue c)) = nowTime.
Proof.
  intros Hd. destruct issue as [k t | e];
    [rewrite fetch_succeeded by assumption
    | rewrite fetch_failed by assumption];
    unfold prepared; destruct (lastRetryFailCount c =? 0); reflexivity.
Qed.

(** C4, as the code has it.  Take two fetches in a row, the first of which
    is not itself skipped, the second less than [updateTokenIntervalMin]
    after the first.  The second returns the debounce error, its trace is
    empty (no sleep, no call of the issuer, no reset of the wrapped
    client's credential) and the whole client, [lastFetch],
    [lastRetryFailCount], [lastRetryInterval] and [nextExpire] included,
    is as the first fetch left it. *)
Theorem second_fetch_skipped (c : TokenAutoUpdateClient)
  (t1 t2 : Time) (issue1 issue2 : TokenResult) :
  debounced t1 c = false ->
  t1 <= t2 ->
  t2 - t1 < updateTokenIntervalMin c ->
  let c1 := post (fetchSTSToken t1 issue1 c) in
  fetchSTSToken t2 issue2 c1 =
  mkOutcome (Some errSTSFetchHighFrequency) c1 [].
Proof.
  intros Hd Hle Hlt c1. apply fetch_skipped, debounced_le.
  - subst c1. rewrite fetch_sets_lastFetch by assumption. exact Hle.
  - subst c1. rewrite fetch_sets_lastFetch by assumption.
    destruct (fetch_config t1 issue1 c) as (_ & _ & H & _).
    rewrite H. exact Hlt.
Qed.

Lemma second_fetch_skipped_witness :
  let c1 := post (fetchSTSToken (1000 * Second)
                    (TokenOk Sample.k1 (5000 * Second)) Sample.c0) in
  fetchSTSToken (1000 * Second + 5) (TokenOk Sample.k1 (6000 * Second)) c1 =
  mkOutcome (Some errSTSFetchHighFrequency) c1 [].
Proof.
  apply (second_fetch_skipped Sample.c0).
  - vm_compute. reflexivity.
  - vm_compute. discriminate.
  - vm_compute. reflexivity.
Defined.

(** Three fetches at 0 s, 0.9 s and 1.0 s with a window of one second: the
    second is skipped and does not move [lastFetch], so the third, a tenth
    of a second after it, goes through to the issuer. *)
Lemma second_fetch_skipped_counterexample :
  let ok := TokenOk Sample.k1 (5000 * Second) in
  let t1 := 900000000 in
  let t2 := 1000000000 in
  let r0 := fetchSTSToken 0 ok Sample.c0 in
  let r1 := fetchSTSToken t1 ok (post r0) in
  let r2 := fetchSTSToken t2 ok (post r1) in
  ret r1 = Some errSTSFetchHighFrequency /\
  t1 <= t2 /\
  t2 - t1 < updateTokenIntervalMin (post r1) /\
  ret r2 = None /\
  trace r2 = [EvTokenUpdate; EvResetAccessKeyToken Sample.k1] /\
  lastFetch (post r2) <> lastFetch (post r1).
Proof. vm_compute. repeat split; discriminate. Qed.

(** ** Counting calls in a trace *)

Lemma occurrences_app (p : Event -> bool) (tr1 tr2 : list Event) :
  occurrences p (tr1 ++ tr2) = (occurrences p tr1 + occurrences p tr2)%nat.
Proof. unfold occurrences. rewrite filter_app, length_app. reflexivity. Qed.

Lemma sleepTrace_quiet (p : Event -> bool) (c : TokenAutoUpdateClient) :
  (forall d, p (EvSleep d) = false) ->
  occurrences p (sleepTrace c) = 0%nat.
Proof.
  intros Hp. unfold sleepTrace.
  destruct (lastRetryFailCount c =? 0); [reflexivity | ].
  destruct (doubledInterval c >? 0); [ | reflexivity].
  unfold occurrences. cbn. rewrite Hp. reflexivity.
Qed.

(** A fetch calls neither the wrapped operation nor itself. *)
Lemma fetch_trace_quiet (nowTime : Time) (issue : TokenResult)
  (c : TokenAutoUpdateClient) :
  occurrences isOperation (trace (fetchSTSToken nowTime issue c)) = 0%nat /\
  occurrences isFetch (trace (fetchSTSToken nowTime issue c)) = 0%nat.
Proof.
  destruct (debounced nowTime c) eqn:Hd.
  - rewrite fetch_skipped by assumption. split; reflexivity.
  - destruct issue as [k t | e];
      [rewrite fetch_succeeded by assumption
      | rewrite fetch_failed by assumption];
      cbn [trace]; rewrite !occurrences_app, !sleepTrace_quiet
        by (intros; reflexivity);
      split; reflexivity.
Qed.

(** ** The retry loop *)

Section DecoratorFacts.

Variable IsTokenError : GoError -> bool.
Variable R : Type.
Variable zero : R.
Variable op : nat -> R * error.
Variable env : nat -> FetchInput.

Local Abbreviation classify := (processError IsTokenError).
Local Abbreviation loop := (tryLoop IsTokenError R op env).
Local Abbreviation method := (decorated IsTokenError R zero op env).

Lemma processError_nil (f : FetchInput) (c : TokenAutoUpdateClient) :
  classify f None c = mkOutcome false c [].
Proof. reflexivity. Qed.

Lemma processError_other (f : FetchInput) (e : GoError)
  (c : TokenAutoUpdateClient) :
  IsTokenError e = false ->
  classify f (Some e) c = mkOutcome false c [].
Proof.
  intros He. unfold processError.
  rewrite He. reflexivity.
Qed.

Lemma processError_token (f : FetchInput) (e : GoError)
  (c : TokenAutoUpdateClient) :
  IsTokenError e = true ->
  let r := fetchSTSToken (fetchNow f) (fetchIssue f) c in
  classify f (Some e) c =
  mkOutcome (match ret r with None => true | Some _ => false end)
    (post r) (EvFetchSTSToken :: trace r).
Proof.
  intros He r. unfold processError.
  rewrite He. unfold callFetchSTSToken, bind, emit.
  cbn -[fetchSTSToken]. fold r.
  destruct (ret r); cbn; rewrite ?app_nil_r; reflexivity.
Qed.

(** One turn of the loop. *)
Lemma tryLoop_step (n i : nat) (cur : R * error)
  (c : TokenAutoUpdateClient) :
  let p := classify (env i) (snd (op i)) c in
  loop (S n) i cur c =
  if ret p then
    let r := loop n (S i) (op i) (post p) in
    mkOutcome (ret r) (post r) (EvOperation :: trace p ++ trace r)
  else mkOutcome (op i) (post p) (EvOperation :: trace p).
Proof.
  intros p. cbn [tryLoop].
  unfold bind, callOperation, emit, retM.
  cbn -[processError tryLoop]. fold p.
  destruct (ret p); cbn -[tryLoop]; [reflexivity | ].
  rewrite app_nil_r. reflexivity.
Qed.

Lemma decorated_run (c : TokenAutoUpdateClient) :
  method c = loop (Z.to_nat (maxTryTimes c)) 0%nat (zero, None) c.
Proof.
  unfold decorated, bind, get. cbn -[tryLoop].
  destruct (loop _ _ _ c). reflexivity.
Qed.

Lemma at_least_one_try (c : TokenAutoUpdateClient) :
  1 <= maxTryTimes c ->
  exists n, Z.to_nat (maxTryTimes c) = S n.
Proof.
  intros H. exists (Z.to_nat (maxTryTimes c - 1)). lia.
Qed.

(** C5.  When the first call of the operation returns a token error and
    the fetch made for it returns an error, whichever it is, the method
    returns the operation's own result and error; the operation has been
    called once and the fetch once. *)
Theorem fetch_failure_keeps_operation_error (c : TokenAutoUpdateClient)
  (r : R) (e : GoError) :
  1 <= maxTryTimes c ->
  op 0%nat = (r, Some e) ->
  IsTokenError e = true ->
  ret (fetchSTSToken (fetchNow (env 0%nat)) (fetchIssue (env 0%nat)) c)
  <> None ->
  let out := method c in
  ret out = (r, Some e) /\
  occurrences isOperation (trace out) = 1%nat /\
  occurrences isFetch (trace out) = 1%nat.
Proof.
  intros Hn Hop He Hf out. subst out.
  destruct (at_least_one_try c Hn) as [n Hn'].
  rewrite decorated_run, Hn', tryLoop_step. cbv zeta.
  rewrite Hop. cbn [snd].
  rewrite processError_token by assumption. cbv zeta. cbn [ret post trace].
  destruct (fetch_trace_quiet (fetchNow (env 0%nat))
              (fetchIssue (env 0%nat)) c) as [Q1 Q2].
  destruct (ret (fetchSTSToken (fetchNow (env 0%nat))
                   (fetchIssue (env 0%nat)) c)) as [fe | ];
    [ | congruence].
  cbn [ret trace]. repeat split.
  - change (EvOperation :: EvFetchSTSToken :: ?t)
      with ([EvOperation; EvFetchSTSToken] ++ t).
    rewrite occurrences_app, Q1. reflexivity.
  - change (EvOperation :: EvFetchSTSToken :: ?t)
      with ([EvOperation; EvFetchSTSToken] ++ t).
    rewrite occurrences_app, Q2. reflexivity.
Qed.


(** C7.  With three tries, an operation whose first two calls return
    token errors and whose third succeeds, and fetches that both return
    [nil]: the method returns the third result with a [nil] error, after
    three calls of the operation and two fetches. *)
Theorem third_try_succeeds (c : TokenAutoUpdateClient)
  (r0 r1 r2 : R) (e0 e1 : GoError) :
  maxTryTimes c = 3 ->
  op 0%nat = (r0, Some e0) -> IsTokenError e0 = true ->
  op 1%nat = (r1, Some e1) -> IsTokenError e1 = true ->
  op 2%nat = (r2, None) ->
  let f0 := fetchSTSToken (fetchNow (env 0%nat)) (fetchIssue (env 0%nat)) c in
  let f1 := fetchSTSToken (fetchNow (env 1%nat)) (fetchIssue (env 1%nat))
              (post f0) in
  ret f0 = None ->
  ret f1 = None ->
  let out := method c in
  ret out = (r2, None) /\
  occurrences isOperation (trace out) = 3%nat /\
  occurrences isFetch (trace out) = 2%nat.
Proof.
  intros Hn Hop0 He0 Hop1 He1 Hop2 f0 f1 Hf0 Hf1 out. subst out.
  rewrite decorated_run, Hn.
  change (Z.to_nat 3) with 3%nat.
  rewrite tryLoop_step. cbv zeta. rewrite Hop0. cbn [snd].
  rewrite processError_token by assumption. cbv zeta.
  fold f0. rewrite Hf0. cbn [ret post trace].
  rewrite tryLoop_step. cbv zeta. rewrite Hop1. cbn [snd].
  rewrite processError_token by assumption. cbv zeta.
  fold f1. rewrite Hf1. cbn [ret post trace].
  rewrite tryLoop_step. cbv zeta. rewrite Hop2. cbn [snd].
  rewrite processError_nil. cbn [ret post trace].
  destruct (fetch_trace_quiet (fetchNow (env 0%nat))
              (fetchIssue (env 0%nat)) c) as [A1 A2].
  destruct (fetch_trace_quiet (fetchNow (env 1%nat))
              (fetchIssue (env 1%nat)) (post f0)) as [B1 B2].
  fold f0 in A1, A2. fold f1 in B1, B2.
  split; [reflexivity | ].
  change (EvOperation :: (EvFetchSTSToken :: trace f0) ++
            EvOperation :: (EvFetchSTSToken :: trace f1) ++ [EvOperation])
    with ([EvOperation; EvFetchSTSToken] ++ trace f0 ++
            [EvOperation; EvFetchSTSToken] ++ trace f1 ++ [EvOperation]).
  rewrite !occurrences_app, A1, A2, B1, B2. split; reflexivity.
Qed.

(** [PublishAlertEvent] never fetches, whatever the operation returns. *)
Lemma publishLoop_no_fetch (errs : nat -> error) (n i : nat) (err : error)
  (c : TokenAutoUpdateClient) :
  occurrences isFetch (trace (publishLoop errs n i err c)) = 0%nat
  /\ post (publishLoop errs n i err c) = c.
Proof.
  revert i err. induction n as [ | n IH]; intros i err; cbn [publishLoop].
  - split; reflexivity.
  - unfold bind, emit. cbn -[publishLoop].
    destruct (errs i) as [e | ].
    + destruct (IH (S i) (Some e)) as [H1 H2]. split; assumption.
    + split; reflexivity.
Qed.

(** C10.  With [maxTryTimes <= 0] the loop body never runs: a method
    returns the zero value of its results and a [nil] error, with an
    empty trace and the client untouched; so does [PublishAlertEvent]. *)
Theorem no_try_returns_zero (c : TokenAutoUpdateClient)
  (errs : nat -> error) :
  maxTryTimes c <= 0 ->
  method c = mkOutcome (zero, None) c [] /\
  PublishAlertEvent errs c = mkOutcome None c [].
Proof.
  intros Hn.
  assert (H0 : Z.to_nat (maxTryTimes c) = 0%nat) by lia.
  split.
  - rewrite decorated_run, H0. reflexivity.
  - unfold PublishAlertEvent, bind, get. cbn -[publishLoop].
    rewrite H0. reflexivity.
Qed.

End DecoratorFacts.

(** ** Witnesses and counterexample for the retry loop *)

Lemma fetch_failure_keeps_operation_error_witness :
  let out := CreateProject Sample.isTokenError
               (fun _ => (None, Some Sample.e401))
               (fun _ => Sample.at_s 1000 (TokenErr Sample.e500))
               Sample.c0 in
  ret out = (None, Some Sample.e401) /\
  occurrences isOperation (trace out) = 1%nat /\
  occurrences isFetch (trace out) = 1%nat.
Proof.
  apply (fetch_failure_keeps_operation_error Sample.isTokenError
           (option string) None _ _ Sample.c0 None Sample.e401).
  - vm_compute. discriminate.
  - reflexivity.
  - reflexivity.
  - vm_compute. discriminate.
Defined.



Lemma third_try_succeeds_witness :
  let op := fun i : nat =>
              match i with
              | 0%nat | 1%nat => (None, Some Sample.e401)
              | _ => (Some "project"%string, None)
              end in
  let env := fun i : nat =>
               Sample.at_s (1000 + 2 * Z.of_nat i)
                 (TokenOk Sample.k1 (5000 * Second)) in
  let out := CreateProject Sample.isTokenError op env Sample.c0 in
  ret out = (Some "project"%string, None) /\
  occurrences isOperation (trace out) = 3%nat /\
  occurrences isFetch (trace out) = 2%nat.
Proof.
  cbv zeta.
  apply (third_try_succeeds Sample.isTokenError (option string) None _ _
           Sample.c0 None None (Some "project"%string)
           Sample.e401 Sample.e401);
    vm_compute; reflexivity.
Defined.

Lemma no_try_returns_zero_witness :
  let c := mkClient Sample.k0 false 0 Second (60 * Second) Second
             (100 * Second) zeroTime 0 0 in
  CreateProject Sample.isTokenError
    (fun _ => (Some "project"%string, None))
    (fun _ => Sample.at_s 1000 (TokenErr Sample.e500)) c
  = mkOutcome (None, None) c [] /\
  PublishAlertEvent (fun _ => Some Sample.e500) c = mkOutcome None c [].
Proof.
  cbv zeta.
  apply (no_try_returns_zero Sample.isTokenError (option string) None).
  vm_compute. discriminate.
Defined.

(** ** The refresh loop: how long it sleeps *)

Lemma sleepInterval_short (t : Duration) :
  t < Minute -> sleepInterval t = 30 * Second.
Proof.
  intros H. unfold sleepInterval.
  apply Z.ltb_lt in H. rewrite H. reflexivity.
Qed.

Lemma sleepInterval_long (t : Duration) :
  Minute <= t <= maxDuration ->
  sleepInterval t = tierTenths t * (t / 10).
Proof.
  intros [Hlo Hhi]. unfold sleepInterval, tierTenths.
  apply Z.ltb_ge in Hlo. rewrite Hlo. apply Z.ltb_ge in Hlo.
  change (int64 (Minute * 10)) with (10 * Minute).
  unfold Minute, Second, maxDuration in *.
  rewrite Z.quot_div_nonneg by lia.
  pose proof (Z.div_pos t 10 ltac:(lia) ltac:(lia)) as Hq.
  pose proof (Z.mul_div_le t 10 ltac:(lia)) as Hm.
  destruct (t <? 10 * (60 * 1000000000));
    [ | destruct (t <? Hour)];
    rewrite int64_small by lia; lia.
Qed.

(** C8, as the code has it.  Let [t] be [nextExpire.Sub(now)].  Below one
    minute the loop sleeps 30 seconds.  From one minute on it sleeps
    [k * (t / 10)] with the integer quotient, where [k] is 7 below ten
    minutes, 6 below one hour and 5 from there on: that is [k/10] of [t]
    exactly when [t] is a whole multiple of 10 ns, and less than [k] ns
    short of it otherwise.  Five minutes give three and a half minutes,
    thirty seconds give thirty seconds. *)
Theorem sleepInterval_tiers (expiresAt now : Time) :
  let t := Sub expiresAt now in
  (t < Minute -> sleepInterval t = 30 * Second) /\
  (Minute <= t -> sleepInterval t = tierTenths t * (t / 10)) /\
  (Minute <= t -> t mod 10 = 0 -> 10 * sleepInterval t = tierTenths t * t) /\
  (Minute <= t ->
   tierTenths t * t - 10 * tierTenths t < 10 * sleepInterval t
   <= tierTenths t * t) /\
  sleepInterval (5 * Minute) = 3 * Minute + 30 * Second /\
  sleepInterval (30 * Second) = 30 * Second.
Proof.
  intros t. pose proof (Sub_range expiresAt now) as Hr. fold t in Hr.
  assert (Hk : 5 <= tierTenths t <= 7).
  { unfold tierTenths. destruct (t <? 10 * Minute); [lia | ].
    destruct (t <? Hour); lia. }
  pose proof (Z.div_mod t 10 ltac:(lia)) as Hdm.
  pose proof (Z.mod_pos_bound t 10 ltac:(lia)) as Hmb.
  split; [ | split; [ | split; [ | split; [ | split]]]].
  - apply sleepInterval_short.
  - intros H. apply sleepInterval_long. lia.
  - intros H H0. rewrite sleepInterval_long by lia. nia.
  - intros H. rewrite sleepInterval_long by lia. nia.
  - vm_compute. reflexivity.
  - vm_compute. reflexivity.
Qed.

Lemma sleepInterval_tiers_witness :
  sleepInterval (7 * Minute) = 7 * (7 * Minute / 10) /\
  10 * sleepInterval (7 * Minute) = 7 * (7 * Minute).
Proof.
  pose proof (sleepInterval_tiers (1007 * Minute) (1000 * Minute))
    as (_ & H1 & H2 & _).
  change (Sub (1007 * Minute) (1000 * Minute)) with (7 * Minute) in H1, H2.
  split.
  - apply H1. vm_compute. discriminate.
  - apply H2; vm_compute; [discriminate | reflexivity].
Defined.

(** One nanosecond past a minute: the loop sleeps 42 s sharp, which is not
    seven tenths of the time left. *)
Lemma sleepInterval_tiers_counterexample :
  let t := Minute + 1 in
  Minute <= t < 10 * Minute /\
  sleepInterval t = 42 * Second /\
  10 * sleepInterval t <> 7 * t.
Proof. vm_compute. repeat split; discriminate. Qed.

(** ** The refresh loop: when it ends *)

(** One turn of the loop. *)
Lemma flushSTSToken_step (tk : Tick) (rest : list Tick)
  (c : TokenAutoUpdateClient) :
  flushSTSToken (tk :: rest) c =
  match tickWake tk with
  | WakeShutdown => mkOutcome (Some ExitShutdown) c [waitEvent tk c]
  | WakeTrigger f =>
      let r := fetchSTSToken (fetchNow f) (fetchIssue f) c in
      let c1 := if tickClose tk then set_closeFlag true (post r) else post r in
      if closeFlag c1 then
        mkOutcome (Some ExitCloseFlag) c1
          (waitEvent tk c :: EvFetchSTSToken :: trace r)
      else
        let r' := flushSTSToken rest c1 in
        mkOutcome (ret r') (post r')
          (waitEvent tk c :: EvFetchSTSToken :: trace r ++ trace r')
  end.
Proof.
  cbn [flushSTSToken]. unfold bind, get, emit, callFetchSTSToken, Close, modify.
  cbn -[fetchSTSToken flushSTSToken sleepInterval Sub].
  destruct (tickWake tk) as [f | ]; [ | reflexivity].
  cbn -[fetchSTSToken flushSTSToken sleepInterval Sub].
  unfold waitEvent.
  destruct (tickClose tk);
    cbn -[fetchSTSToken flushSTSToken sleepInterval Sub];
    rewrite ?app_nil_r.
  - reflexivity.
  - destruct (closeFlag (post (fetchSTSToken (fetchNow f) (fetchIssue f) c)));
      cbn -[fetchSTSToken flushSTSToken sleepInterval Sub];
      rewrite ?app_nil_r; reflexivity.
Qed.

Lemma fetch_closeFlag (f : FetchInput) (c : TokenAutoUpdateClient) :
  closeFlag (post (fetchSTSToken (fetchNow f) (fetchIssue f) c)) = closeFlag c.
Proof.
  destruct (fetch_config (fetchNow f) (fetchIssue f) c) as (_ & _ & _ & _ & H).
  exact H.
Qed.

(** As long as nobody asks it to stop, the loop goes on, one fetch per
    turn, whatever the fetches return. *)
Lemma flush_quiet (ticks : list Tick) (c : TokenAutoUpdateClient) :
  closeFlag c = false ->
  Forall quietTick ticks ->
  let r := flushSTSToken ticks c in
  ret r = None /\
  closeFlag (post r) = false /\
  occurrences isFetch (trace r) = List.length ticks.
Proof.
  revert c. induction ticks as [ | tk rest IH]; intros c Hc Hq.
  - cbn. repeat split; assumption.
  - inversion Hq as [ | ? ? Htk Hrest]; subst.
    cbv zeta. rewrite flushSTSToken_step.
    unfold quietTick in Htk.
    destruct (tickWake tk) as [f | ]; [ | contradiction].
    rewrite Htk. cbv zeta. rewrite fetch_closeFlag, Hc.
    destruct (IH (post (fetchSTSToken (fetchNow f) (fetchIssue f) c)))
      as (H1 & H2 & H3);
      [rewrite fetch_closeFlag; exact Hc | exact Hrest | ].
    cbn [ret post trace]. repeat split; try assumption.
    change (waitEvent tk c :: EvFetchSTSToken :: ?t)
      with ([waitEvent tk c; EvFetchSTSToken] ++ t).
    rewrite !occurrences_app, H3.
    destruct (fetch_trace_quiet (fetchNow f) (fetchIssue f) c) as [_ Q].
    rewrite Q. reflexivity.
Qed.

(** Why the loop has ended, when it has. *)
Lemma flush_exit (ticks : list Tick) (c : TokenAutoUpdateClient) :
  match ret (flushSTSToken ticks c) with
  | None => True
  | Some ExitShutdown => Exists shutdownTick ticks
  | Some ExitCloseFlag =>
      closeFlag (post (flushSTSToken ticks c)) = true /\
      (closeFlag c = true \/ Exists (fun tk => tickClose tk = true) ticks)
  end.
Proof.
  revert c. induction ticks as [ | tk rest IH]; intros c.
  - exact I.
  - rewrite flushSTSToken_step.
    destruct (tickWake tk) as [f | ] eqn:Hw.
    + cbv zeta.
      set (c1 := if tickClose tk
                 then set_closeFlag true
                        (post (fetchSTSToken (fetchNow f) (fetchIssue f) c))
                 else post (fetchSTSToken (fetchNow f) (fetchIssue f) c)).
      destruct (closeFlag c1) eqn:Hc1.
      * cbn [ret post]. split; [exact Hc1 | ].
        subst c1. destruct (tickClose tk) eqn:Hcl.
        -- right. constructor. exact Hcl.
        -- left. rewrite fetch_closeFlag in Hc1. exact Hc1.
      * cbn [ret post]. specialize (IH c1).
        destruct (ret (flushSTSToken rest c1)) as [[ | ] | ]; [ | | exact I].
        -- apply Exists_cons_tl. exact IH.
        -- destruct IH as [H1 [H2 | H2]]; [congruence | ].
           split; [exact H1 | right; apply Exists_cons_tl; exact H2].
    + cbn [ret]. constructor. exact Hw.
Qed.

(** Turns after which the loop is still running can be split off. *)
Lemma flush_app (pre rest : list Tick) (c : TokenAutoUpdateClient) :
  ret (flushSTSToken pre c) = None ->
  let r := flushSTSToken pre c in
  let r' := flushSTSToken rest (post r) in
  flushSTSToken (pre ++ rest) c =
  mkOutcome (ret r') (post r') (trace r ++ trace r').
Proof.
  revert c. induction pre as [ | tk pre IH]; intros c Hrun.
  - cbn. destruct (flushSTSToken rest c). reflexivity.
  - cbv zeta. rewrite <- app_comm_cons.
    rewrite !flushSTSToken_step in *.
    destruct (tickWake tk) as [f | ]; [ | discriminate Hrun].
    cbv zeta in *.
    set (c1 := if tickClose tk
               then set_closeFlag true
                      (post (fetchSTSToken (fetchNow f) (fetchIssue f) c))
               else post (fetchSTSToken (fetchNow f) (fetchIssue f) c)) in *.
    destruct (closeFlag c1); [discriminate Hrun | ].
    cbn [ret post trace] in *.
    rewrite (IH c1 Hrun). cbn [ret post trace].
    rewrite <- !app_comm_cons, app_assoc. reflexivity.
Qed.

(** C9.  (1) With the close flag clear and turns in which the timer fires
    and [Close] is not called, the loop is still running after the last
    turn and has made one fetch per turn, whatever the fetches returned.
    (2) When the loop has returned at line 61 some turn took the shutdown
    case; when it has returned at line 67 the close flag is set, and it
    was set at the start or by a [Close] during some turn.  (3) In the
    turn whose [select] takes the shutdown case the loop returns at once:
    to what happened before, that turn adds only its wait, no fetch, the
    client is left as it was, and later turns are not run. *)
Theorem flushSTSToken_stops_only_on_request (c : TokenAutoUpdateClient) :
  (forall ticks,
      closeFlag c = false -> Forall quietTick ticks ->
      ret (flushSTSToken ticks c) = None /\
      occurrences isFetch (trace (flushSTSToken ticks c)) = List.length ticks)
  /\
  (forall ticks,
      (ret (flushSTSToken ticks c) = Some ExitShutdown ->
       Exists shutdownTick ticks) /\
      (ret (flushSTSToken ticks c) = Some ExitCloseFlag ->
       closeFlag (post (flushSTSToken ticks c)) = true /\
       (closeFlag c = true \/ Exists (fun tk => tickClose tk = true) ticks)))
  /\
  (forall pre tk rest,
      ret (flushSTSToken pre c) = None -> shutdownTick tk ->
      let r := flushSTSToken pre c in
      flushSTSToken (pre ++ tk :: rest) c =
      mkOutcome (Some ExitShutdown) (post r)
        (trace r ++ [waitEvent tk (post r)])).
Proof.
  split; [ | split].
  - intros ticks Hc Hq.
    destruct (flush_quiet ticks c Hc Hq) as (H1 & _ & H3). split; assumption.
  - intros ticks. pose proof (flush_exit ticks c) as H.
    split; intros Hr; rewrite Hr in H; exact H.
  - intros pre tk rest Hrun Hsd r.
    rewrite (flush_app pre (tk :: rest) c Hrun). cbv zeta. fold r.
    rewrite flushSTSToken_step. unfold shutdownTick in Hsd. rewrite Hsd.
    reflexivity.
Qed.

Lemma flushSTSToken_stops_only_on_request_witness :
  let failing := WakeTrigger (Sample.at_s 1000 (TokenErr Sample.e500)) in
  let pre := [mkTick (10 * Second) failing false;
              mkTick (50 * Second) failing false] in
  let stop := mkTick (90 * Second) WakeShutdown false in
  let later := [mkTick (95 * Second) failing false] in
  ret (flushSTSToken pre Sample.c0) = None /\
  occurrences isFetch (trace (flushSTSToken pre Sample.c0)) = 2%nat /\
  ret (flushSTSToken (pre ++ stop :: later) Sample.c0) = Some ExitShutdown /\
  occurrences isFetch (trace (flushSTSToken (pre ++ stop :: later) Sample.c0))
  = 2%nat.
Proof.
  cbv zeta.
  destruct (flushSTSToken_stops_only_on_request Sample.c0) as (H1 & _ & H3).
  set (failing := WakeTrigger (Sample.at_s 1000 (TokenErr Sample.e500))).
  set (pre := [mkTick (10 * Second) failing false;
               mkTick (50 * Second) failing false]).
  assert (Hq : Forall quietTick pre)
    by (repeat constructor).
  destruct (H1 pre eq_refl Hq) as [Hrun Hn].
  split; [exact Hrun | split; [exact Hn | ]].
  rewrite (H3 pre (mkTick (90 * Second) WakeShutdown false)
             [mkTick (95 * Second) failing false] Hrun eq_refl).
  cbn [ret trace]. split; [reflexivity | ].
  rewrite occurrences_app, Hn. reflexivity.
Defined.

(** ** PublishAlertEvent, the method with a loop of its own *)

(** It never reaches [fetchSTSToken] and never changes the client. *)
Lemma PublishAlertEvent_never_fetches (errs : nat -> error)
  (c : TokenAutoUpdateClient) :
  occurrences isFetch (trace (PublishAlertEvent errs c)) = 0%nat /\
  post (PublishAlertEvent errs c) = c.
Proof.
  unfold PublishAlertEvent, bind, get. cbn -[publishLoop].
  apply publishLoop_no_fetch.
Qed.

Lemma publishLoop_all_errors (errs : nat -> error) (n i : nat) (err : error)
  (c : TokenAutoUpdateClient) :
  (forall j, errs j <> None) ->
  trace (publishLoop errs n i err c) = repeat EvOperation n /\
  ret (publishLoop errs n i err c) =
  match n with
  | O => err
  | S m => errs (i + m)%nat
  end.
Proof.
  intros Hall. revert i err.
  induction n as [ | n IH]; intros i err; cbn [publishLoop].
  - split; reflexivity.
  - unfold bind, emit. cbn -[publishLoop].
    destruct (errs i) as [e | ] eqn:He; [ | elim (Hall i He)].
    destruct (IH (S i) (Some e)) as [H1 H2].
    rewrite H1, H2. split; [reflexivity | ].
    destruct n as [ | m].
    + rewrite Nat.add_0_r. symmetry. exact He.
    + f_equal. lia.
Qed.

(** As long as the operation returns an error, of whatever kind, it is
    called again, [maxTryTimes] times in all. *)
Lemma PublishAlertEvent_retries_any_error (errs : nat -> error)
  (c : TokenAutoUpdateClient) :
  (forall j, errs j <> None) ->
  trace (PublishAlertEvent errs c)
  = repeat EvOperation (Z.to_nat (maxTryTimes c)).
Proof.
  intros Hall. unfold PublishAlertEvent, bind, get. cbn -[publishLoop].
  apply (publishLoop_all_errors errs _ 0%nat None c Hall).
Qed.

(** * Further properties of the code *)

(** ** One fetch: who is called, and with what *)

(** A fetch calls the issuer once unless it is skipped, and resets the
    wrapped client's credential once exactly when it returns [nil]: the
    credential set is then the issuer's, and the reset is the last thing
    done, after the call of the issuer.  When it returns an error the
    wrapped client keeps the credential it had. *)
Theorem fetch_call_accounting (nowTime : Time) (issue : TokenResult)
  (c : TokenAutoUpdateClient) :
  let r := fetchSTSToken nowTime issue c in
  occurrences isTokenUpdate (trace r)
  = (if debounced nowTime c then 0%nat else 1%nat) /\
  match ret r with
  | None =>
      exists k expireTime pre,
        issue = TokenOk k expireTime /\
        logClient (post r) = k /\
        trace r = pre ++ [EvTokenUpdate; EvResetAccessKeyToken k] /\
        occurrences isReset (trace r) = 1%nat
  | Some _ =>
      logClient (post r) = logClient c /\
      occurrences isReset (trace r) = 0%nat
  end.
Proof.
  cbv zeta. destruct (debounced nowTime c) eqn:Hd.
  - rewrite fetch_skipped by assumption. cbn. repeat split.
  - destruct issue as [k t | e].
    + rewrite fetch_succeeded by assumption. cbn [ret post trace].
      split.
      * rewrite occurrences_app, sleepTrace_quiet by reflexivity. reflexivity.
      * exists k, t, (sleepTrace c). repeat split.
        rewrite occurrences_app, sleepTrace_quiet by reflexivity. reflexivity.
    + rewrite fetch_failed by assumption. cbn [ret post trace].
      rewrite !occurrences_app, !sleepTrace_quiet by reflexivity.
      repeat split. unfold prepared.
      destruct (lastRetryFailCount c =? 0); reflexivity.
Qed.

Lemma sleepTrace_facts (c : TokenAutoUpdateClient) :
  sleepsWithin 0 (waitIntervalMax c) (sleepTrace c) /\
  (occurrences isSleep (sleepTrace c) <= 1)%nat /\
  (lastRetryFailCount c = 0 -> occurrences isSleep (sleepTrace c) = 0%nat).
Proof.
  unfold sleepTrace, sleepsWithin.
  destruct (lastRetryFailCount c =? 0) eqn:Hn.
  - split; [constructor | split; [cbn; lia | reflexivity]].
  - apply Z.eqb_neq in Hn.
    destruct (doubledInterval c >? 0) eqn:Hp.
    + pose proof (doubledInterval_range c) as [_ Hhi].
      apply Z.gtb_lt in Hp.
      split; [ | split; [cbn; lia | contradiction]].
      constructor; [lia | constructor].
    + split; [constructor | split; [cbn; lia | contradiction]].
Qed.

(** Whatever the state and the bounds, a fetch sleeps at most once, for a
    positive time that never exceeds [waitIntervalMax]; and it does not
    sleep at all when no failure is on record. *)
Theorem fetch_sleep_bounded (nowTime : Time) (issue : TokenResult)
  (c : TokenAutoUpdateClient) :
  let tr := trace (fetchSTSToken nowTime issue c) in
  sleepsWithin 0 (waitIntervalMax c) tr /\
  (occurrences isSleep tr <= 1)%nat /\
  (lastRetryFailCount c = 0 -> occurrences isSleep tr = 0%nat).
Proof.
  cbv zeta. destruct (sleepTrace_facts c) as (H1 & H2 & H3).
  destruct (debounced nowTime c) eqn:Hd.
  - rewrite fetch_skipped by assumption. cbn.
    split; [constructor | split; [lia | reflexivity]].
  - destruct issue as [k t | e];
      [rewrite fetch_succeeded by assumption
      | rewrite fetch_failed by assumption];
      cbn [trace]; rewrite occurrences_app;
      (split; [apply Forall_app; split; [exact H1 | repeat constructor]
              | split; [cbn; lia | intros H0; rewrite (H3 H0); reflexivity]]).
Qed.

Lemma fetch_sleep_bounded_witness :
  let c := fetchAll [Sample.at_s 1000 (TokenOk Sample.k1 (5000 * Second))]
             Sample.c0 in
  occurrences isSleep
    (trace (fetchSTSToken (1002 * Second) (TokenErr Sample.e500) c)) = 0%nat.
Proof.
  cbv zeta.
  apply (fetch_sleep_bounded (1002 * Second) (TokenErr Sample.e500)).
  vm_compute. reflexivity.
Defined.

(** ** Sequences of fetches *)

Lemma fetchEach_post (fs : list FetchInput) (c : TokenAutoUpdateClient) :
  post (fetchEach fs c) = fetchAll fs c.
Proof.
  revert c. induction fs as [ | f fs IH]; intros c; [reflexivity | ].
  cbn [fetchEach fetchAll]. unfold bind. cbn -[fetchSTSToken fetchEach].
  apply IH.
Qed.

Lemma fetchEach_step (f : FetchInput) (fs : list FetchInput)
  (c : TokenAutoUpdateClient) :
  let r := fetchSTSToken (fetchNow f) (fetchIssue f) c in
  let rs := fetchEach fs (post r) in
  fetchEach (f :: fs) c =
  mkOutcome (ret r :: ret rs) (post rs) (trace r ++ trace rs).
Proof.
  cbv zeta. cbn [fetchEach]. unfold bind, retM.
  cbn -[fetchSTSToken fetchEach]. rewrite app_nil_r. reflexivity.
Qed.

Lemma fetch_step_interval (nowTime : Time) (issue : TokenResult)
  (c : TokenAutoUpdateClient) :
  let c' := post (fetchSTSToken nowTime issue c) in
  lastRetryInterval c' = lastRetryInterval c \/
  lastRetryInterval c' = 0 \/
  lastRetryInterval c' = doubledInterval c.
Proof.
  cbv zeta. destruct (debounced nowTime c) eqn:Hd.
  - rewrite fetch_skipped by assumption. left. reflexivity.
  - destruct issue as [k t | e];
      [rewrite fetch_succeeded by assumption
      | rewrite fetch_failed by assumption];
      unfold prepared; destruct (lastRetryFailCount c =? 0); cbn; tauto.
Qed.

(** With the bounds in order, the retry interval of a client that starts
    zeroed is, after any sequence of fetches, either zero or between
    [waitIntervalMin] and [waitIntervalMax]; no assumption on the size of
    the bounds is needed, overflow of the doubling included. *)
Theorem interval_in_range (c0 : TokenAutoUpdateClient)
  (fs : list FetchInput) :
  zeroed c0 ->
  waitIntervalMin c0 <= waitIntervalMax c0 ->
  intervalInRange (fetchAll fs c0).
Proof.
  intros [_ Hz] Hle.
  assert (H0 : intervalInRange c0) by (left; exact Hz).
  clear Hz. revert c0 Hle H0.
  induction fs as [ | f fs IH]; intros c Hle Hc; cbn [fetchAll].
  - exact Hc.
  - destruct (fetch_config (fetchNow f) (fetchIssue f) c)
      as (Hmin & Hmax & _).
    apply IH.
    + rewrite Hmin, Hmax. exact Hle.
    + unfold intervalInRange in *. rewrite Hmin, Hmax.
      pose proof (doubledInterval_range c) as Hr.
      destruct (fetch_step_interval (fetchNow f) (fetchIssue f) c)
        as [H | [H | H]]; rewrite H; lia || tauto.
Qed.

Lemma interval_in_range_witness :
  intervalInRange
    (fetchAll [Sample.at_s 1000 (TokenErr Sample.e500);
               Sample.at_s 1002 (TokenErr Sample.e500);
               Sample.at_s 1004 (TokenErr Sample.e500)] Sample.c0).
Proof.
  apply (interval_in_range Sample.c0).
  - split; reflexivity.
  - vm_compute. discriminate.
Defined.

Lemma backoffAfter_step (lo hi : Duration) (n : nat) :
  0 < lo -> lo <= hi -> hi < 2 ^ 62 ->
  (let d := int64 (backoffAfter lo hi (S n) * 2) in
   let d := if d <? lo then lo else d in
   if d >=? hi then hi else d)
  = backoffAfter lo hi (S (S n)).
Proof.
  intros Hlo Hle Hhi.
  assert (Hb : 0 <= backoffAfter lo hi (S n) <= hi).
  { destruct n as [ | k]; cbn [backoffAfter]; [lia | ].
    assert (0 < 2 ^ Z.of_nat k) by (apply Z.pow_pos_nonneg; lia). nia. }
  rewrite int64_small by lia.
  rewrite two_tests_clamp by exact Hle. unfold clamp.
  destruct n as [ | k]; cbn [backoffAfter].
  - cbn. rewrite Z.mul_1_r.
    destruct (0 <? lo) eqn:E; [ | apply Z.ltb_ge in E; lia]. lia.
  - rewrite Nat2Z.inj_succ, Z.pow_succ_r by lia.
    assert (Hp : 0 < 2 ^ Z.of_nat k) by (apply Z.pow_pos_nonneg; lia).
    destruct (Z.min hi (lo * 2 ^ Z.of_nat k) * 2 <? lo) eqn:E1;
      [apply Z.ltb_lt in E1; nia | apply Z.ltb_ge in E1].
    destruct (hi <? Z.min hi (lo * 2 ^ Z.of_nat k) * 2) eqn:E2;
      [apply Z.ltb_lt in E2 | apply Z.ltb_ge in E2]; nia.
Qed.

Lemma failures_in_a_row (fs : list FetchInput) (n : nat)
  (c : TokenAutoUpdateClient) :
  0 < waitIntervalMin c ->
  waitIntervalMin c <= waitIntervalMax c ->
  waitIntervalMax c < 2 ^ 62 ->
  Z.of_nat (n + List.length fs) < 2 ^ 63 ->
  lastRetryFailCount c = Z.of_nat n ->
  lastRetryInterval c = backoffAfter (waitIntervalMin c) (waitIntervalMax c) n ->
  allProceed fs c = true ->
  forallb isFailure fs = true ->
  lastRetryFailCount (fetchAll fs c) = Z.of_nat (n + List.length fs) /\
  lastRetryInterval (fetchAll fs c)
  = backoffAfter (waitIntervalMin c) (waitIntervalMax c) (n + List.length fs).
Proof.
  revert n c. induction fs as [ | f fs IH];
    intros n c Hlo Hle Hhi Hlen Hcnt Hint Hgo Hfail.
  - cbn. rewrite Nat.add_0_r. split; assumption.
  - cbn [fetchAll allProceed forallb List.length] in *.
    apply andb_prop in Hgo. destruct Hgo as [Hd Hgo].
    apply andb_prop in Hfail. destruct Hfail as [Hf Hfail].
    apply negb_true_iff in Hd.
    unfold isFailure in Hf.
    destruct (fetchIssue f) as [k t | e]; [discriminate | ].
    destruct (fetch_config (fetchNow f) (TokenErr e) c) as (Hmin & Hmax & _).
    set (c' := post (fetchSTSToken (fetchNow f) (TokenErr e) c)) in *.
    replace (n + S (List.length fs))%nat with (S n + List.length fs)%nat
      in * by lia.
    rewrite <- Hmin, <- Hmax.
    assert (Hc' : lastRetryFailCount c' = Z.of_nat (S n) /\
                  lastRetryInterval c'
                  = backoffAfter (waitIntervalMin c) (waitIntervalMax c) (S n)).
    { subst c'. rewrite fetch_failed by assumption. unfold prepared.
      rewrite Hcnt.
      cbn [post lastRetryFailCount lastRetryInterval set_lastRetryFailCount].
      rewrite int64_small by lia. split; [lia | ].
      destruct n as [ | m].
      - cbn. exact Hint.
      - destruct (Z.of_nat (S m) =? 0) eqn:E;
          [apply Z.eqb_eq in E; lia | ].
        cbn [lastRetryInterval set_lastRetryInterval].
        unfold doubledInterval. rewrite Hint.
        apply backoffAfter_step; assumption. }
    destruct Hc' as [Hc1 Hc2].
    apply IH; try assumption; rewrite ?Hmin, ?Hmax; assumption.
Qed.

(** Failures in a row, none of them skipped, from a zeroed client with
    [0 < waitIntervalMin <= waitIntervalMax < 2^62]: after [n] of them the
    counter is [n] and the retry interval is 0 for [n <= 1] and
    [min waitIntervalMax (waitIntervalMin * 2^(n-2))] from the second
    failure on.  The interval doubles from [waitIntervalMin] and stays at
    [waitIntervalMax] once it has reached it. *)
Theorem backoff_growth (c0 : TokenAutoUpdateClient) (fs : list FetchInput) :
  zeroed c0 ->
  0 < waitIntervalMin c0 ->
  waitIntervalMin c0 <= waitIntervalMax c0 ->
  waitIntervalMax c0 < 2 ^ 62 ->
  Z.of_nat (List.length fs) < 2 ^ 63 ->
  allProceed fs c0 = true ->
  forallb isFailure fs = true ->
  lastRetryFailCount (fetchAll fs c0) = Z.of_nat (List.length fs) /\
  lastRetryInterval (fetchAll fs c0)
  = backoffAfter (waitIntervalMin c0) (waitIntervalMax c0) (List.length fs).
Proof.
  intros [Hc Hi] Hlo Hle Hhi Hlen Hgo Hfail.
  apply (failures_in_a_row fs 0%nat c0); try assumption.
Qed.

Lemma backoff_growth_witness :
  let fs := map (fun s => Sample.at_s s (TokenErr Sample.e500))
              [1000; 1002; 1004; 1010; 1020; 1040; 1080; 1150; 1250] in
  lastRetryFailCount (fetchAll fs Sample.c0) = 9 /\
  lastRetryInterval (fetchAll fs Sample.c0) = 60 * Second.
Proof.
  cbv zeta.
  apply (backoff_growth Sample.c0
           (map (fun s => Sample.at_s s (TokenErr Sample.e500))
              [1000; 1002; 1004; 1010; 1020; 1040; 1080; 1150; 1250]));
    try (vm_compute; reflexivity); try (vm_compute; discriminate).
  split; reflexivity.
Defined.

(** ** The debounce window over a sequence *)



(** Fetches that all fall inside the window after [lastFetch], however
    many, are all skipped: each returns the debounce error, nobody is
    called, and the client stays exactly as it was. *)
Theorem fetches_in_window_skipped (fs : list FetchInput)
  (c : TokenAutoUpdateClient) :
  Forall (fun f => lastFetch c <= fetchNow f /\
                   fetchNow f - lastFetch c < updateTokenIntervalMin c) fs ->
  fetchEach fs c =
  mkOutcome (map (fun _ => Some errSTSFetchHighFrequency) fs) c [].
Proof.
  induction fs as [ | f fs IH]; intros Hall.
  - reflexivity.
  - inversion Hall as [ | ? ? [Hle Hlt] Hrest]; subst.
    rewrite fetchEach_step. cbv zeta.
    rewrite fetch_skipped by (apply debounced_le; assumption).
    cbn [ret post trace]. rewrite (IH Hrest). reflexivity.
Qed.

Lemma fetches_in_window_skipped_witness :
  let c := fetchAll [Sample.at_s 1000 (TokenOk Sample.k1 (5000 * Second))]
             Sample.c0 in
  let ok := TokenOk Sample.k1 (6000 * Second) in
  fetchEach [mkFetchInput (1000 * Second) ok;
             mkFetchInput (1000 * Second + 500000000) ok;
             mkFetchInput (1001 * Second - 1) ok] c
  = mkOutcome [Some errSTSFetchHighFrequency;
               Some errSTSFetchHighFrequency;
               Some errSTSFetchHighFrequency] c [].
Proof.
  cbv zeta.
  apply (fetches_in_window_skipped
           [mkFetchInput (1000 * Second) (TokenOk Sample.k1 (6000 * Second));
            mkFetchInput (1000 * Second + 500000000)
              (TokenOk Sample.k1 (6000 * Second));
            mkFetchInput (1001 * Second - 1)
              (TokenOk Sample.k1 (6000 * Second))]).
  repeat constructor; vm_compute; reflexivity || discriminate.
Defined.

(** A client that has never fetched ([lastFetch] is the zero time) lets
    its first fetch through at any instant from 1970 on, whatever window
    an [int64] can hold: the distance to the zero time saturates. *)
Theorem first_fetch_not_debounced (nowTime : Time)
  (c : TokenAutoUpdateClient) :
  lastFetch c = zeroTime ->
  0 <= nowTime ->
  updateTokenIntervalMin c <= maxDuration ->
  debounced nowTime c = false.
Proof.
  intros Hz Hn Hw. unfold debounced. rewrite Hz.
  apply Z.ltb_ge.
  assert (Hs : Sub nowTime zeroTime = maxDuration).
  { unfold Sub, zeroTime, maxDuration, minDuration, Second. lia. }
  rewrite Hs. exact Hw.
Qed.

Lemma first_fetch_not_debounced_witness :
  debounced (1000 * Second) Sample.c0 = false.
Proof.
  apply first_fetch_not_debounced.
  - reflexivity.
  - vm_compute. discriminate.
  - vm_compute. discriminate.
Defined.

(** ** The retry loop: bounds, order and result *)

Lemma occurrences_cons (p : Event -> bool) (e : Event) (tr : list Event) :
  occurrences p (e :: tr)
  = ((if p e then 1%nat else 0%nat) + occurrences p tr)%nat.
Proof. unfold occurrences. cbn. destruct (p e); reflexivity. Qed.

Lemma fetch_reset_count (nowTime : Time) (issue : TokenResult)
  (c : TokenAutoUpdateClient) :
  occurrences isReset (trace (fetchSTSToken nowTime issue c))
  = match ret (fetchSTSToken nowTime issue c) with
    | None => 1%nat
    | Some _ => 0%nat
    end.
Proof.
  destruct (debounced nowTime c) eqn:Hd.
  - rewrite fetch_skipped by assumption. reflexivity.
  - destruct issue as [k t | e];
      [rewrite fetch_succeeded by assumption
      | rewrite fetch_failed by assumption];
      cbn [trace ret]; rewrite occurrences_app, sleepTrace_quiet by reflexivity;
      reflexivity.
Qed.

Lemma sameConfig_refl (c : TokenAutoUpdateClient) : sameConfig c c.
Proof. unfold sameConfig. tauto. Qed.

Lemma sameConfig_trans (c1 c2 c3 : TokenAutoUpdateClient) :
  sameConfig c1 c2 -> sameConfig c2 c3 -> sameConfig c1 c3.
Proof.
  unfold sameConfig. intros (A1 & A2 & A3 & A4) (B1 & B2 & B3 & B4).
  rewrite B1, B2, B3, B4. tauto.
Qed.

Lemma fetch_sameConfig (nowTime : Time) (issue : TokenResult)
  (c : TokenAutoUpdateClient) :
  sameConfig c (post (fetchSTSToken nowTime issue c)).
Proof.
  destruct (fetch_config nowTime issue c) as (H1 & H2 & H3 & H4 & _).
  unfold sameConfig. tauto.
Qed.

Section DecoratorAccounting.

Variable IsTokenError : GoError -> bool.
Variable R : Type.
Variable zero : R.
Variable op : nat -> R * error.
Variable env : nat -> FetchInput.

Local Abbreviation classify := (processError IsTokenError).
Local Abbreviation loop := (tryLoop IsTokenError R op env).
Local Abbreviation method := (decorated IsTokenError R zero op env).

(** What one classification of an error costs. *)
Lemma processError_accounting (f : FetchInput) (err : error)
  (c : TokenAutoUpdateClient) :
  let p := classify f err c in
  occurrences isOperation (trace p) = 0%nat /\
  (occurrences isFetch (trace p) <= 1)%nat /\
  (ret p = true -> occurrences isFetch (trace p) = 1%nat) /\
  occurrences isReset (trace p) = (if ret p then 1%nat else 0%nat) /\
  sameConfig c (post p) /\
  closeFlag (post p) = closeFlag c.
Proof.
  cbv zeta. destruct err as [e | ].
  - destruct (IsTokenError e) eqn:He.
    + rewrite processError_token by assumption. cbv zeta.
      cbn [ret post trace].
      destruct (fetch_trace_quiet (fetchNow f) (fetchIssue f) c) as [Q1 Q2].
      pose proof (fetch_reset_count (fetchNow f) (fetchIssue f) c) as Q3.
      pose proof (fetch_sameConfig (fetchNow f) (fetchIssue f) c) as Q4.
      pose proof (fetch_closeFlag f c) as Q5.
      rewrite !occurrences_cons, Q1, Q2, Q3. cbn [isOperation isFetch isReset].
      destruct (ret (fetchSTSToken (fetchNow f) (fetchIssue f) c));
        (split; [reflexivity | split; [lia | split; [ | split; [ | split]]]]);
        try assumption; try reflexivity; try discriminate.
    + rewrite processError_other by assumption. cbn.
      split; [reflexivity | split; [lia | split; [discriminate | ]]].
      split; [reflexivity | split; [apply sameConfig_refl | reflexivity]].
  - rewrite processError_nil. cbn.
    split; [reflexivity | split; [lia | split; [discriminate | ]]].
    split; [reflexivity | split; [apply sameConfig_refl | reflexivity]].
Qed.

Lemma tryLoop_accounting (n i : nat) (cur : R * error)
  (c : TokenAutoUpdateClient) :
  let out := loop n i cur c in
  (occurrences isOperation (trace out) <= n)%nat /\
  (occurrences isFetch (trace out) <= occurrences isOperation (trace out))%nat /\
  (occurrences isReset (trace out) <= occurrences isFetch (trace out))%nat /\
  (occurrences isOperation (trace out)
   <= occurrences isReset (trace out) + 1)%nat /\
  sameConfig c (post out) /\
  closeFlag (post out) = closeFlag c.
Proof.
  revert i cur c. induction n as [ | n IH]; intros i cur c.
  - cbn. split; [lia | split; [lia | split; [lia | split; [lia | split]]]];
      [apply sameConfig_refl | reflexivity].
  - cbv zeta. rewrite tryLoop_step. cbv zeta.
    destruct (processError_accounting (env i) (snd (op i)) c)
      as (P1 & P2 & P3 & P4 & P5 & P6).
    destruct (ret (classify (env i) (snd (op i)) c)) eqn:Hret.
    + specialize (P3 eq_refl).
      destruct (IH (S i) (op i) (post (classify (env i) (snd (op i)) c)))
        as (I1 & I2 & I3 & I4 & I5 & I6).
      cbn [ret post trace].
      rewrite !occurrences_cons, !occurrences_app, P1, P3, P4.
      cbn [isOperation isFetch isReset].
      split; [lia | split; [lia | split; [lia | split; [lia | split]]]].
      * eapply sameConfig_trans; [exact P5 | exact I5].
      * rewrite I6. exact P6.
    + cbn [ret post trace].
      rewrite !occurrences_cons, P1, P4. cbn [isOperation isFetch isReset].
      split; [lia | split; [lia | split; [lia | split; [lia | split]]]];
        assumption.
Qed.

Lemma tryLoop_returns_last (n i : nat) (cur : R * error)
  (c : TokenAutoUpdateClient) :
  let out := loop (S n) i cur c in
  (1 <= occurrences isOperation (trace out))%nat /\
  ret out = op (i + occurrences isOperation (trace out) - 1)%nat.
Proof.
  revert i cur c. induction n as [ | n IH]; intros i cur c;
    cbv zeta; rewrite tryLoop_step; cbv zeta;
    destruct (processError_accounting (env i) (snd (op i)) c)
      as (P1 & _);
    destruct (ret (classify (env i) (snd (op i)) c)).
  - cbn [tryLoop retM ret post trace].
    rewrite occurrences_cons, app_nil_r, P1. cbn [isOperation].
    split; [lia | ]. f_equal. lia.
  - cbn [ret trace]. rewrite occurrences_cons, P1. cbn [isOperation].
    split; [lia | ]. f_equal. lia.
  - destruct (IH (S i) (op i) (post (classify (env i) (snd (op i)) c)))
      as [I1 I2].
    cbn [ret trace]. rewrite occurrences_cons, occurrences_app, P1.
    cbn [isOperation]. split; [lia | ].
    rewrite I2. f_equal. lia.
  - cbn [ret trace]. rewrite occurrences_cons, P1. cbn [isOperation].
    split; [lia | ]. f_equal. lia.
Qed.

(** A method never calls the wrapped operation more than [maxTryTimes]
    times, never fetches more often than it calls the operation, and
    leaves [maxTryTimes], the two backoff bounds, the debounce window and
    the close flag as they were. *)
Theorem method_call_bounds (c : TokenAutoUpdateClient) :
  let out := method c in
  (Z.of_nat (occurrences isOperation (trace out)) <= Z.max 0 (maxTryTimes c)) /\
  (occurrences isFetch (trace out) <= occurrences isOperation (trace out))%nat /\
  sameConfig c (post out) /\
  closeFlag (post out) = closeFlag c.
Proof.
  cbv zeta. rewrite decorated_run.
  destruct (tryLoop_accounting (Z.to_nat (maxTryTimes c)) 0%nat (zero, None) c)
    as (H1 & H2 & _ & _ & H5 & H6).
  split; [lia | split; [exact H2 | split; [exact H5 | exact H6]]].
Qed.


(** With at least one try allowed, what a method returns is what the last
    call it made of the wrapped operation returned, result and error
    alike. *)
Theorem method_returns_last_call (c : TokenAutoUpdateClient) :
  1 <= maxTryTimes c ->
  let out := method c in
  (1 <= occurrences isOperation (trace out))%nat /\
  ret out = op (occurrences isOperation (trace out) - 1)%nat.
Proof.
  intros Hn. cbv zeta.
  destruct (at_least_one_try c Hn) as [n Hn'].
  rewrite decorated_run, Hn'.
  exact (tryLoop_returns_last n 0%nat (zero, None) c).
Qed.

Lemma tryLoop_exhausted (n i : nat) (cur : R * error)
  (c : TokenAutoUpdateClient) :
  (forall j, exists r e, op j = (r, Some e) /\ IsTokenError e = true) ->
  fetchesSucceed env n i c ->
  let out := loop n i cur c in
  occurrences isOperation (trace out) = n /\
  occurrences isFetch (trace out) = n /\
  occurrences isReset (trace out) = n.
Proof.
  intros Hop. revert i cur c.
  induction n as [ | n IH]; intros i cur c Hf.
  - cbn. repeat split.
  - cbv zeta. rewrite tryLoop_step. cbv zeta.
    destruct (Hop i) as (r & e & Hi & He). rewrite Hi. cbn [snd].
    rewrite processError_token by assumption. cbv zeta.
    cbn [fetchesSucceed] in Hf. destruct Hf as [Hok Hrest].
    destruct (fetch_trace_quiet (fetchNow (env i)) (fetchIssue (env i)) c)
      as [Q1 Q2].
    pose proof (fetch_reset_count (fetchNow (env i)) (fetchIssue (env i)) c)
      as Q3.
    rewrite Hok in *. cbn [ret post trace].
    destruct (IH (S i) (r, Some e) _ Hrest) as (I1 & I2 & I3).
    rewrite !occurrences_cons, !occurrences_app, !occurrences_cons,
      Q1, Q2, Q3, I1, I2, I3.
    cbn [isOperation isFetch isReset]. repeat split.
Qed.

Lemma fetch_ok_ends_with_reset (nowTime : Time) (issue : TokenResult)
  (c : TokenAutoUpdateClient) :
  ret (fetchSTSToken nowTime issue c) = None ->
  exists pre k,
    trace (fetchSTSToken nowTime issue c) = pre ++ [EvResetAccessKeyToken k].
Proof.
  intros Hok. destruct (debounced nowTime c) eqn:Hd.
  - rewrite fetch_skipped in Hok by assumption. discriminate.
  - destruct issue as [k t | e].
    + rewrite fetch_succeeded by assumption. cbn [trace].
      exists (sleepTrace c ++ [EvTokenUpdate]), k.
      rewrite <- app_assoc. reflexivity.
    + rewrite fetch_failed in Hok by assumption. discriminate.
Qed.

Lemma tryLoop_exhausted_ends (n i : nat) (cur : R * error)
  (c : TokenAutoUpdateClient) :
  (forall j, exists r e, op j = (r, Some e) /\ IsTokenError e = true) ->
  fetchesSucceed env (S n) i c ->
  exists pre k,
    trace (loop (S n) i cur c) = pre ++ [EvResetAccessKeyToken k].
Proof.
  intros Hop. revert i cur c.
  induction n as [ | n IH]; intros i cur c Hf;
    rewrite tryLoop_step; cbv zeta;
    destruct (Hop i) as (r & e & Hi & He); rewrite Hi; cbn [snd];
    rewrite processError_token by assumption; cbv zeta;
    destruct Hf as [Hok Hrest]; rewrite Hok; cbn [ret post trace].
  - destruct (fetch_ok_ends_with_reset _ _ _ Hok) as (pre & k & Hpre).
    rewrite Hpre. cbn [tryLoop retM trace]. rewrite app_nil_r.
    exists (EvOperation :: EvFetchSTSToken :: pre), k. reflexivity.
  - destruct (IH (S i) (r, Some e) _ Hrest) as (pre & k & Hpre).
    rewrite Hpre.
    exists (EvOperation
              :: (EvFetchSTSToken
                    :: trace (fetchSTSToken (fetchNow (env i))
                                (fetchIssue (env i)) c)) ++ pre), k.
    rewrite !app_comm_cons, app_assoc. reflexivity.
Qed.

(** When every call of the operation returns a token error and every
    fetch made for it returns [nil], a method with [maxTryTimes = N >= 1]
    calls the operation [N] times and fetches [N] times, and returns what
    the [N]-th call returned, the token error included.  The last thing
    it does is the credential reset of the [N]-th fetch: the credential
    is fresh, and no call uses it. *)
Theorem tries_exhausted (c : TokenAutoUpdateClient) :
  1 <= maxTryTimes c ->
  (forall j, exists r e, op j = (r, Some e) /\ IsTokenError e = true) ->
  fetchesSucceed env (Z.to_nat (maxTryTimes c)) 0%nat c ->
  let out := method c in
  occurrences isOperation (trace out) = Z.to_nat (maxTryTimes c) /\
  occurrences isFetch (trace out) = Z.to_nat (maxTryTimes c) /\
  ret out = op (Z.to_nat (maxTryTimes c) - 1)%nat /\
  exists pre k, trace out = pre ++ [EvResetAccessKeyToken k].
Proof.
  intros Hn Hop Hf. cbv zeta. rewrite decorated_run.
  destruct (tryLoop_exhausted _ 0%nat (zero, None) c Hop Hf)
    as (H1 & H2 & _).
  destruct (at_least_one_try c Hn) as [n Hn'].
  pose proof (tryLoop_returns_last n 0%nat (zero, None) c) as [_ Hlast].
  rewrite Hn' in *. cbv zeta in *. rewrite H1 in Hlast.
  split; [exact H1 | split; [exact H2 | split; [exact Hlast | ]]].
  apply tryLoop_exhausted_ends; assumption.
Qed.

End DecoratorAccounting.

Lemma method_returns_last_call_witness :
  let op := fun i : nat =>
              match i with
              | 0%nat => (None, Some Sample.e401)
              | _ => (Some "project"%string, Some Sample.e500)
              end in
  let env := fun i : nat =>
               Sample.at_s (1000 + 2 * Z.of_nat i)
                 (TokenOk Sample.k1 (5000 * Second)) in
  let out := CreateProject Sample.isTokenError op env Sample.c0 in
  (1 <= occurrences isOperation (trace out))%nat /\
  ret out = op (occurrences isOperation (trace out) - 1)%nat.
Proof.
  cbv zeta.
  apply (method_returns_last_call Sample.isTokenError (option string) None).
  vm_compute. discriminate.
Defined.

Lemma tries_exhausted_witness :
  let op := fun _ : nat => (@None string, Some Sample.e401) in
  let env := fun i : nat =>
               Sample.at_s (1000 + 2 * Z.of_nat i)
                 (TokenOk Sample.k1 (5000 * Second)) in
  let out := CreateProject Sample.isTokenError op env Sample.c0 in
  occurrences isOperation (trace out) = 3%nat /\
  occurrences isFetch (trace out) = 3%nat /\
  ret out = (None, Some Sample.e401) /\
  exists pre k, trace out = pre ++ [EvResetAccessKeyToken k].
Proof.
  cbv zeta.
  apply (tries_exhausted Sample.isTokenError (option string) None
           (fun _ : nat => (@None string, Some Sample.e401))
           (fun i : nat =>
              Sample.at_s (1000 + 2 * Z.of_nat i)
                (TokenOk Sample.k1 (5000 * Second)))
           Sample.c0).
  - vm_compute. discriminate.
  - intros j. exists None, Sample.e401. split; reflexivity.
  - vm_compute. repeat split.
Defined.

(** ** PublishAlertEvent: when its loop ends *)

Lemma publishLoop_first_success (errs : nat -> error) (n i k : nat)
  (err : error) (c : TokenAutoUpdateClient) :
  (k < n)%nat ->
  errs (i + k)%nat = None ->
  (forall j, (j < k)%nat -> errs (i + j)%nat <> None) ->
  publishLoop errs n i err c = mkOutcome None c (repeat EvOperation (S k)).
Proof.
  revert i k err. induction n as [ | n IH]; intros i k err Hk Hnil Hbefore.
  - lia.
  - cbn [publishLoop]. unfold bind, emit. cbn -[publishLoop repeat].
    destruct k as [ | k].
    + rewrite Nat.add_0_r in Hnil. rewrite Hnil. reflexivity.
    + destruct (errs i) as [e | ] eqn:He.
      * rewrite (IH (S i) k (Some e)).
        -- reflexivity.
        -- lia.
        -- rewrite <- Hnil. f_equal. lia.
        -- intros j Hj. specialize (Hbefore (S j) ltac:(lia)).
           replace (S i + j)%nat with (i + S j)%nat by lia. exact Hbefore.
      * exfalso. apply (Hbefore 0%nat); [lia | ].
        rewrite Nat.add_0_r. exact He.
Qed.

(** [PublishAlertEvent] stops at the first call that returns [nil], if
    there is one among the first [maxTryTimes]: it then returns [nil]
    after exactly that many calls, whatever the kind of the errors before,
    without any fetch and with the client untouched. *)
Theorem PublishAlertEvent_first_success (errs : nat -> error) (k : nat)
  (c : TokenAutoUpdateClient) :
  Z.of_nat k < maxTryTimes c ->
  errs k = None ->
  (forall j, (j < k)%nat -> errs j <> None) ->
  PublishAlertEvent errs c = mkOutcome None c (repeat EvOperation (S k)).
Proof.
  intros Hk Hnil Hbefore.
  unfold PublishAlertEvent, bind, get. cbn -[publishLoop repeat].
  rewrite (publishLoop_first_success errs _ 0%nat k None c);
    [reflexivity | lia | exact Hnil | exact Hbefore].
Qed.

Lemma PublishAlertEvent_first_success_witness :
  PublishAlertEvent
    (fun i => match i with
              | 0%nat => Some Sample.e401
              | 1%nat => Some Sample.e500
              | _ => None
              end) Sample.c0
  = mkOutcome None Sample.c0 [EvOperation; EvOperation; EvOperation].
Proof.
  apply (PublishAlertEvent_first_success _ 2%nat Sample.c0).
  - vm_compute. reflexivity.
  - reflexivity.
  - intros [ | [ | j]] Hj; [discriminate | discriminate | lia].
Defined.

Lemma publishLoop_exhausted (errs : nat -> error) (n i : nat)
  (err : error) (c : TokenAutoUpdateClient) :
  (forall j, (j < n)%nat -> errs (i + j)%nat <> None) ->
  publishLoop errs n i err c =
  mkOutcome (match n with
             | O => err
             | S m => errs (i + m)%nat
             end) c (repeat EvOperation n).
Proof.
  revert i err. induction n as [ | n IH]; intros i err Hall.
  - reflexivity.
  - cbn [publishLoop]. unfold bind, emit. cbn -[publishLoop repeat].
    destruct (errs i) as [e | ] eqn:He.
    + rewrite (IH (S i) (Some e)).
      * cbn [ret post trace repeat app]. f_equal.
        destruct n as [ | m].
        -- rewrite Nat.add_0_r. symmetry. exact He.
        -- f_equal. lia.
      * intros j Hj. specialize (Hall (S j) ltac:(lia)).
        replace (S i + j)%nat with (i + S j)%nat by lia. exact Hall.
    + exfalso. apply (Hall 0%nat); [lia | ].
      rewrite Nat.add_0_r. exact He.
Qed.

(** When each of the first [maxTryTimes = N >= 1] calls returns an error,
    token error or not, [PublishAlertEvent] makes all [N] calls one after
    the other and returns the error of the last; no fetch is made in
    between and the client is untouched. *)
Theorem PublishAlertEvent_exhausted (errs : nat -> error)
  (c : TokenAutoUpdateClient) :
  1 <= maxTryTimes c ->
  (forall j, Z.of_nat j < maxTryTimes c -> errs j <> None) ->
  PublishAlertEvent errs c =
  mkOutcome (errs (Z.to_nat (maxTryTimes c) - 1)%nat) c
    (repeat EvOperation (Z.to_nat (maxTryTimes c))).
Proof.
  intros Hn Hall.
  unfold PublishAlertEvent, bind, get. cbn -[publishLoop repeat].
  rewrite (publishLoop_exhausted errs _ 0%nat None c).
  - cbn [ret post trace app].
    destruct (Z.to_nat (maxTryTimes c)) as [ | m] eqn:Hm; [lia | ].
    f_equal. f_equal. lia.
  - intros j Hj. apply Hall. lia.
Qed.

Lemma PublishAlertEvent_exhausted_witness :
  PublishAlertEvent (fun _ => Some Sample.e401) Sample.c0
  = mkOutcome (Some Sample.e401) Sample.c0
      [EvOperation; EvOperation; EvOperation].
Proof.
  apply (PublishAlertEvent_exhausted (fun _ => Some Sample.e401) Sample.c0).
  - vm_compute. discriminate.
  - intros j _. discriminate.
Defined.

(** ** The refresh loop: bounds on the wait, and accounting per turn *)

Lemma sleepInterval_at_least (t : Duration) :
  minDuration <= t <= maxDuration -> 30 * Second <= sleepInterval t.
Proof.
  intros Hr. destruct (Z.lt_ge_cases t Minute) as [H | H].
  - rewrite sleepInterval_short by assumption. lia.
  - rewrite sleepInterval_long by lia.
    assert (Hk : 5 <= tierTenths t <= 7).
    { unfold tierTenths. destruct (t <? 10 * Minute); [lia | ].
      destruct (t <? Hour); lia. }
    pose proof (Z.div_le_mono Minute t 10 ltac:(lia) H) as Hq.
    change (Minute / 10) with 6000000000 in Hq.
    unfold Second. nia.
Qed.

(** Let [t] be the time left to expiry as the loop computes it.  The wait
    is never shorter than 30 seconds.  From one minute left on, the wait
    ends before the expiry and covers at least half of the time left, up
    to 9 ns.  With less than 30 seconds left, also when the credential has
    expired already, the wait ends after the expiry. *)
Theorem sleepInterval_bounds (expiresAt now : Time) :
  let t := Sub expiresAt now in
  30 * Second <= sleepInterval t /\
  (Minute <= t -> sleepInterval t < t /\ t <= 2 * sleepInterval t + 9) /\
  (t < 30 * Second -> t < sleepInterval t).
Proof.
  intros t. pose proof (Sub_range expiresAt now) as Hr. fold t in Hr.
  split; [apply sleepInterval_at_least; exact Hr | split].
  - intros H. rewrite sleepInterval_long by lia.
    assert (Hk : 5 <= tierTenths t <= 7).
    { unfold tierTenths. destruct (t <? 10 * Minute); [lia | ].
      destruct (t <? Hour); lia. }
    pose proof (Z.div_mod t 10 ltac:(lia)) as Hdm.
    pose proof (Z.mod_pos_bound t 10 ltac:(lia)) as Hmb.
    unfold Minute, Second in H. nia.
  - intros H. rewrite sleepInterval_short by (unfold Minute, Second in *; lia).
    exact H.
Qed.

Lemma sleepInterval_bounds_witness :
  sleepInterval (45 * Minute) < 45 * Minute /\
  45 * Minute <= 2 * sleepInterval (45 * Minute) + 9.
Proof.
  pose proof (sleepInterval_bounds (1045 * Minute) (1000 * Minute))
    as (_ & H & _).
  change (Sub (1045 * Minute) (1000 * Minute)) with (45 * Minute) in H.
  apply H. vm_compute. discriminate.
Defined.

Lemma fetch_trace_no_wait (nowTime : Time) (issue : TokenResult)
  (c : TokenAutoUpdateClient) (lo : Duration) :
  waitsAtLeast lo (trace (fetchSTSToken nowTime issue c)) /\
  occurrences isWait (trace (fetchSTSToken nowTime issue c)) = 0%nat.
Proof.
  assert (Hs : waitsAtLeast lo (sleepTrace c)).
  { unfold sleepTrace, waitsAtLeast.
    destruct (lastRetryFailCount c =? 0); [constructor | ].
    destruct (doubledInterval c >? 0); repeat constructor. }
  destruct (debounced nowTime c) eqn:Hd.
  - rewrite fetch_skipped by assumption. split; [constructor | reflexivity].
  - destruct issue as [k t | e];
      [rewrite fetch_succeeded by assumption
      | rewrite fetch_failed by assumption];
      cbn [trace]; rewrite occurrences_app, sleepTrace_quiet by reflexivity;
      (split; [apply Forall_app; split; [exact Hs | repeat constructor]
              | reflexivity]).
Qed.

(** Every wait of the refresh loop lasts at least 30 seconds, whatever
    the expiry stored, the clock and the outcome of the fetches: the loop
    cannot spin. *)
Theorem flush_waits_at_least_30s (ticks : list Tick)
  (c : TokenAutoUpdateClient) :
  waitsAtLeast (30 * Second) (trace (flushSTSToken ticks c)).
Proof.
  revert c. induction ticks as [ | tk rest IH]; intros c.
  - constructor.
  - rewrite flushSTSToken_step.
    assert (Hw : 30 * Second
                 <= sleepInterval (Sub (nextExpire c) (tickNow tk)))
      by (apply sleepInterval_at_least, Sub_range).
    destruct (tickWake tk) as [f | ].
    + cbv zeta.
      destruct (fetch_trace_no_wait (fetchNow f) (fetchIssue f) c
                  (30 * Second)) as [Hf _].
      set (c1 := if tickClose tk
                 then set_closeFlag true
                        (post (fetchSTSToken (fetchNow f) (fetchIssue f) c))
                 else post (fetchSTSToken (fetchNow f) (fetchIssue f) c)).
      destruct (closeFlag c1); cbn [trace]; unfold waitsAtLeast, waitEvent.
      * constructor; [exact Hw | constructor; [exact I | exact Hf]].
      * constructor; [exact Hw | constructor; [exact I | ]].
        apply Forall_app. split; [exact Hf | apply IH].
    + cbn [trace]. unfold waitEvent. repeat constructor. exact Hw.
Qed.



(** Once the close flag is set the loop ends in its next turn, but not
    before that turn's wait is over: if the timer fires first the loop
    still makes one fetch and then returns at line 67; if the shutdown
    signal comes first it returns at line 61 without a fetch.  Later
    turns are not run. *)
Theorem closed_loop_ends_next_turn (tk : Tick) (rest : list Tick)
  (c : TokenAutoUpdateClient) :
  closeFlag c = true ->
  let out := flushSTSToken (tk :: rest) c in
  out = flushSTSToken [tk] c /\
  occurrences isWait (trace out) = 1%nat /\
  match tickWake tk with
  | WakeTrigger _ =>
      ret out = Some ExitCloseFlag /\
      occurrences isFetch (trace out) = 1%nat
  | WakeShutdown =>
      ret out = Some ExitShutdown /\
      occurrences isFetch (trace out) = 0%nat
  end.
Proof.
  intros Hc. cbv zeta. rewrite !flushSTSToken_step. unfold waitEvent.
  destruct (tickWake tk) as [f | ].
  - cbv zeta.
    destruct (fetch_trace_no_wait (fetchNow f) (fetchIssue f) c 0) as [_ Hw].
    destruct (fetch_trace_quiet (fetchNow f) (fetchIssue f) c) as [_ Hq].
    assert (H1 : closeFlag
                   (if tickClose tk
                    then set_closeFlag true
                           (post (fetchSTSToken (fetchNow f) (fetchIssue f) c))
                    else post (fetchSTSToken (fetchNow f) (fetchIssue f) c))
                 = true).
    { destruct (tickClose tk); [reflexivity | ].
      rewrite fetch_closeFlag. exact Hc. }
    rewrite H1. cbn [ret trace].
    rewrite !occurrences_cons, Hw, Hq. cbn [isWait isFetch].
    repeat split.
  - cbn. repeat split.
Qed.

Lemma closed_loop_ends_next_turn_witness :
  let c := post (Close Sample.c0) in
  let tk := mkTick (10 * Second)
              (WakeTrigger (Sample.at_s 1000 (TokenErr Sample.e500))) false in
  ret (flushSTSToken [tk; tk; tk] c) = Some ExitCloseFlag /\
  occurrences isFetch (trace (flushSTSToken [tk; tk; tk] c)) = 1%nat.
Proof.
  cbv zeta.
  pose proof (closed_loop_ends_next_turn
                (mkTick (10 * Second)
                   (WakeTrigger (Sample.at_s 1000 (TokenErr Sample.e500)))
                   false)
                [mkTick (10 * Second)
                   (WakeTrigger (Sample.at_s 1000 (TokenErr Sample.e500)))
                   false;
                 mkTick (10 * Second)
                   (WakeTrigger (Sample.at_s 1000 (TokenErr Sample.e500)))
                   false]
                (post (Close Sample.c0)) eq_refl) as (_ & _ & H).
  exact H.
Defined.

(** ** The retry loop: where it stops *)

Section DecoratorStops.

Variable IsTokenError : GoError -> bool.
Variable R : Type.
Variable zero : R.
Variable op : nat -> R * error.
Variable env : nat -> FetchInput.

Local Abbreviation classify := (processError IsTokenError).
Local Abbreviation loop := (tryLoop IsTokenError R op env).
Local Abbreviation method := (decorated IsTokenError R zero op env).

Lemma processError_final (f : FetchInput) (err : error)
  (c : TokenAutoUpdateClient) :
  match err with
  | None => True
  | Some e => IsTokenError e = false
  end ->
  classify f err c = mkOutcome false c [].
Proof.
  destruct err as [e | ]; intros H.
  - apply processError_other. exact H.
  - apply processError_nil.
Qed.

Lemma tryLoop_stops_at (n i k : nat) (cur : R * error)
  (c : TokenAutoUpdateClient) :
  (i <= k)%nat ->
  match snd (op k) with
  | None => True
  | Some e => IsTokenError e = false
  end ->
  (occurrences isOperation (trace (loop n i cur c)) <= k - i + 1)%nat.
Proof.
  intros Hik Hfinal. revert i cur c Hik.
  induction n as [ | n IH]; intros i cur c Hik.
  - cbn. lia.
  - rewrite tryLoop_step. cbv zeta.
    destruct (processError_accounting IsTokenError (env i) (snd (op i)) c)
      as (P1 & _).
    destruct (Nat.eq_dec i k) as [-> | Hne].
    + rewrite (processError_final (env k) (snd (op k)) c Hfinal).
      cbn. lia.
    + destruct (ret (classify (env i) (snd (op i)) c)); cbn [trace].
      * specialize (IH (S i) (op i)
                      (post (classify (env i) (snd (op i)) c)) ltac:(lia)).
        rewrite occurrences_cons, occurrences_app, P1. cbn [isOperation]. lia.
      * rewrite occurrences_cons, P1. cbn [isOperation]. lia.
Qed.

(** A method never calls the wrapped operation again after a call that
    returned a [nil] error or an error that is no token error: if the
    call number [k] (from 0) is such a call, at most [k + 1] calls are
    made, whatever [maxTryTimes] is and whatever the fetches return. *)
Theorem no_call_after_final_answer (k : nat) (c : TokenAutoUpdateClient) :
  match snd (op k) with
  | None => True
  | Some e => IsTokenError e = false
  end ->
  (occurrences isOperation (trace (method c)) <= k + 1)%nat.
Proof.
  intros Hfinal. rewrite decorated_run.
  pose proof (tryLoop_stops_at (Z.to_nat (maxTryTimes c)) 0%nat k
                (zero, None) c ltac:(lia) Hfinal) as H.
  lia.
Qed.

End DecoratorStops.

Lemma no_call_after_final_answer_witness :
  let op := fun i : nat =>
              match i with
              | 0%nat => (None, Some Sample.e401)
              | _ => (Some "project"%string, None)
              end in
  let env := fun i : nat =>
               Sample.at_s (1000 + 2 * Z.of_nat i)
                 (TokenOk Sample.k1 (5000 * Second)) in
  (occurrences isOperation
     (trace (CreateProject Sample.isTokenError op env Sample.c0)) <= 2)%nat.
Proof.
  cbv zeta.
  apply (no_call_after_final_answer Sample.isTokenError (option string) None
           (fun i : nat =>
              match i with
              | 0%nat => (None, Some Sample.e401)
              | _ => (Some "project"%string, None)
              end)
           (fun i : nat =>
              Sample.at_s (1000 + 2 * Z.of_nat i)
                (TokenOk Sample.k1 (5000 * Second)))
           1%nat Sample.c0).
  exact I.
Defined.

(** ** The refresh loop while the issuer keeps failing *)

Lemma failed_fetch_keeps_nextExpire (f : FetchInput)
  (c : TokenAutoUpdateClient) :
  isFailure f = true ->
  nextExpire (post (fetchSTSToken (fetchNow f) (fetchIssue f) c))
  = nextExpire c.
Proof.
  unfold isFailure. intros Hf.
  destruct (fetchIssue f) as [k t | e]; [discriminate | ].
  destruct (debounced (fetchNow f) c) eqn:Hd.
  - rewrite fetch_skipped by assumption. reflexivity.
  - rewrite fetch_failed by assumption. unfold prepared.
    destruct (lastRetryFailCount c =? 0); reflexivity.
Qed.

(** With less than a minute left to the stored expiry at each turn, no
    shutdown, no close and an issuer that returns errors, the loop goes
    on, the stored expiry stays where it was, and every wait is exactly
    30 seconds: after expiry the refresh is retried every 30 seconds. *)
Theorem failing_refresh_every_30s (ticks : list Tick)
  (c : TokenAutoUpdateClient) :
  closeFlag c = false ->
  Forall (fun tk => failingTick tk /\
                    Sub (nextExpire c) (tickNow tk) < Minute) ticks ->
  let out := flushSTSToken ticks c in
  ret out = None /\
  nextExpire (post out) = nextExpire c /\
  waitsExactly (30 * Second) (trace out) /\
  occurrences isWait (trace out) = List.length ticks.
Proof.
  revert c. induction ticks as [ | tk rest IH]; intros c Hc Hall; cbv zeta.
  - cbn. repeat split. constructor.
  - inversion Hall as [ | ? ? [Htk Hlt] Hrest]; subst.
    rewrite flushSTSToken_step. unfold failingTick in Htk.
    destruct (tickWake tk) as [f | ]; [ | contradiction].
    destruct Htk as [Hf Hcl]. rewrite Hcl. cbv zeta.
    rewrite fetch_closeFlag, Hc.
    pose proof (failed_fetch_keeps_nextExpire f c Hf) as Hne.
    destruct (IH (post (fetchSTSToken (fetchNow f) (fetchIssue f) c)))
      as (I1 & I2 & I3 & I4).
    + rewrite fetch_closeFlag. exact Hc.
    + rewrite Hne. exact Hrest.
    + cbn [ret post trace List.length].
      destruct (fetch_trace_no_wait (fetchNow f) (fetchIssue f) c 0)
        as [_ Hw].
      split; [exact I1 | split; [congruence | split]].
      * unfold waitsExactly, waitEvent.
        constructor; [apply sleepInterval_short; exact Hlt | ].
        constructor; [exact I | ].
        apply Forall_app. split; [ | exact I3].
        clear - f c.
        destruct (debounced (fetchNow f) c) eqn:Hd.
        -- rewrite fetch_skipped by assumption. constructor.
        -- assert (Hs : Forall (fun e => match e with
                                          | EvWait w => w = 30 * Second
                                          | _ => True
                                          end) (sleepTrace c)).
           { unfold sleepTrace.
             destruct (lastRetryFailCount c =? 0); [constructor | ].
             destruct (doubledInterval c >? 0); repeat constructor. }
           destruct (fetchIssue f) as [k t | e];
             [rewrite fetch_succeeded by assumption
             | rewrite fetch_failed by assumption];
             cbn [trace]; apply Forall_app; split;
             try exact Hs; repeat constructor.
      * unfold waitEvent.
        rewrite !occurrences_cons, occurrences_app, Hw, I4.
        cbn [isWait]. lia.
Qed.

Lemma failing_refresh_every_30s_witness :
  let failing := WakeTrigger (Sample.at_s 1000 (TokenErr Sample.e500)) in
  let ticks := [mkTick (90 * Second) failing false;
                mkTick (200 * Second) failing false] in
  ret (flushSTSToken ticks Sample.c0) = None /\
  nextExpire (post (flushSTSToken ticks Sample.c0)) = nextExpire Sample.c0 /\
  waitsExactly (30 * Second) (trace (flushSTSToken ticks Sample.c0)) /\
  occurrences isWait (trace (flushSTSToken ticks Sample.c0)) = 2%nat.
Proof.
  cbv zeta.
  apply (failing_refresh_every_30s
           [mkTick (90 * Second)
              (WakeTrigger (Sample.at_s 1000 (TokenErr Sample.e500))) false;
            mkTick (200 * Second)
              (WakeTrigger (Sample.at_s 1000 (TokenErr Sample.e500))) false]
           Sample.c0).
  - reflexivity.
  - repeat constructor.
Defined.
